(** * Weighted pattern correlation (src/pattern_correlation.py)

    A shallow embedding of [calculate_pattern_correlation] and of its
    xarray wrapper [calculate_spatial_correlation].

    numpy arrays are records of a shape and of the flattened (C order)
    cells.  The arithmetic of the element type is an interface
    ([Dtype]) with two instances:
    - [binary64], IEEE 754 double precision, the type numpy computes
      with; it evaluates inside Rocq;
    - [exact], the real numbers extended with one not-a-number value,
      i.e. the same program run without rounding and without overflow.
    Statements about control flow are proved for every instance;
    algebraic statements are proved for [exact]. *)

From Stdlib Require Import PrimFloat SpecFloat FloatOps FloatAxioms.
From Stdlib Require Import String.
From Stdlib Require Import List Bool Arith Lia.
From Stdlib Require Import Reals Lra Psatz.
Import ListNotations.

(** ** Element types *)

Class Dtype : Type := {
  num : Type;
  zero : num;
  one : num;
  tol : num;                       (* the literal 1e-10 *)
  fadd : num -> num -> num;
  fsub : num -> num -> num;
  fmul : num -> num -> num;
  fdiv : num -> num -> num;
  np_sqrt : num -> num;
  np_abs : num -> num;
  np_isnan : num -> bool;
  feq : num -> num -> bool;        (* == *)
  flt : num -> num -> bool;        (* <  *)
  of_nat : nat -> num
}.

(** IEEE 754 binary64. *)
Fixpoint float_of_nat (n : nat) : float :=
  match n with
  | O => 0%float
  | S k => PrimFloat.add (float_of_nat k) 1%float
  end.

#[export] Instance binary64 : Dtype := {|
  num := float;
  zero := 0%float;
  one := 1%float;
  tol := 0x1.b7cdfd9d7bdbbp-34%float;   (* the double nearest to 1e-10 *)
  fadd := PrimFloat.add;
  fsub := PrimFloat.sub;
  fmul := PrimFloat.mul;
  fdiv := PrimFloat.div;
  np_sqrt := PrimFloat.sqrt;
  np_abs := PrimFloat.abs;
  np_isnan := fun x => negb (PrimFloat.eqb x x);
  feq := PrimFloat.eqb;
  flt := PrimFloat.ltb;
  of_nat := float_of_nat
|}.

(** Exact arithmetic: a real number or NaN.  There is no rounding, no
    overflow and no infinity: a division by zero (an infinity or a NaN
    in IEEE 754) and the square root of a negative number are NaN;
    every comparison with NaN is false. *)
Inductive xreal : Type :=
| ENaN : xreal
| EFin : R -> xreal.

Definition xlift2 (f : R -> R -> R) (x y : xreal) : xreal :=
  match x, y with
  | EFin a, EFin b => EFin (f a b)
  | _, _ => ENaN
  end.

Definition xdiv (x y : xreal) : xreal :=
  match x, y with
  | EFin a, EFin b => if Req_dec_T b 0 then ENaN else EFin (a / b)
  | _, _ => ENaN
  end.

Definition xsqrt (x : xreal) : xreal :=
  match x with
  | EFin a => if Rlt_dec a 0 then ENaN else EFin (sqrt a)
  | ENaN => ENaN
  end.

Definition xabs (x : xreal) : xreal :=
  match x with
  | EFin a => EFin (Rabs a)
  | ENaN => ENaN
  end.

Definition xisnan (x : xreal) : bool :=
  match x with
  | ENaN => true
  | EFin _ => false
  end.

Definition xeq (x y : xreal) : bool :=
  match x, y with
  | EFin a, EFin b => if Req_dec_T a b then true else false
  | _, _ => false
  end.

Definition xlt (x y : xreal) : bool :=
  match x, y with
  | EFin a, EFin b => if Rlt_dec a b then true else false
  | _, _ => false
  end.

Definition rtol : R := / 10000000000.

#[export] Instance exact : Dtype := {|
  num := xreal;
  zero := EFin 0;
  one := EFin 1;
  tol := EFin rtol;
  fadd := xlift2 Rplus;
  fsub := xlift2 Rminus;
  fmul := xlift2 Rmult;
  fdiv := xdiv;
  np_sqrt := xsqrt;
  np_abs := xabs;
  np_isnan := xisnan;
  feq := xeq;
  flt := xlt;
  of_nat := fun n => EFin (INR n)
|}.

(** ** Arrays *)

Record ndarray (A : Type) : Type := mk_ndarray {
  shape : list nat;
  data : list A               (* the cells, flattened in C order *)
}.
Arguments mk_ndarray {A} _ _.
Arguments shape {A} _.
Arguments data {A} _.

Definition size_of (s : list nat) : nat := fold_right Nat.mul 1 s.

Definition well_formed {A} (a : ndarray A) : Prop :=
  length (data a) = size_of (shape a).

Definition shape_eqb (s t : list nat) : bool :=
  if list_eq_dec Nat.eq_dec s t then true else false.

Definition flatten {A} (a : ndarray A) : list A := data a.

Fixpoint zip_with {A B C} (f : A -> B -> C) (xs : list A) (ys : list B)
  : list C :=
  match xs, ys with
  | x :: xs', y :: ys' => f x y :: zip_with f xs' ys'
  | _, _ => []
  end.

(** [a[mask]] for a boolean mask of the length of [a]. *)
Fixpoint mask_index {A} (a : list A) (mask : list bool) : list A :=
  match a, mask with
  | x :: a', b :: mask' =>
      if b then x :: mask_index a' mask' else mask_index a' mask'
  | _, _ => []
  end.

Definition np_any (mask : list bool) : bool := existsb (fun b => b) mask.

(** ** Errors *)

Inductive ValueError : Type :=
| PatternShapeMismatch     (* "Patterns must have the same shape. ..." *)
| NoValidData              (* "No valid (non-NaN) data points found in both patterns" *)
| WeightShapeMismatch      (* "Weights must have the same shape as patterns. ..." *)
| ZeroVariance             (* "One or both patterns have zero variance" *)
| LatDimNotFound.          (* "Latitude dimension '...' not found in data1" *)

Inductive result (A : Type) : Type :=
| Ok : A -> result A
| Raise : ValueError -> result A.
Arguments Ok {A} _.
Arguments Raise {A} _.

Section Correlation.
Context {D : Dtype}.

(** ** [np.sum] of a contiguous one-dimensional array

    numpy's add reduction does not add from left to right: its inner
    loop adds the pairwise sum of the cells to the identity 0.  Fewer
    than 8 cells are added in a plain loop; up to 128 cells are added
    into 8 accumulators that are then combined as a balanced tree, the
    cells after the last full row of 8 being added one by one; a longer
    array is split near its middle, at a multiple of 8, and the sums of
    its halves are added.  (The plain loop starts from 0 here; numpy
    releases differ on the sign of that zero, which shows only in the
    sign of a sum of negative zeros.) *)

(** [for (i = 0; i < n; i++) res += a[i]] *)
Definition sum_loop (res : num) (a : list num) : num := fold_left fadd a res.

(** [r[j] += a[i + j]] for [rows] rows of 8 cells; the cells left. *)
Fixpoint accumulate (r a : list num) (rows : nat) : list num * list num :=
  match rows with
  | O => (r, a)
  | S k => accumulate (zip_with fadd r (firstn 8 a)) (skipn 8 a) k
  end.

(** [((r[0] + r[1]) + (r[2] + r[3])) + ((r[4] + r[5]) + (r[6] + r[7]))] *)
Definition combine8 (r : list num) : num :=
  match r with
  | [r0; r1; r2; r3; r4; r5; r6; r7] =>
      fadd (fadd (fadd r0 r1) (fadd r2 r3))
           (fadd (fadd r4 r5) (fadd r6 r7))
  | _ => zero
  end.

(** The branch [n <= 128]: the accumulators start as the first 8 cells
    and take the rows from cell 8 up to [n - n % 8]. *)
Definition block_sum (a : list num) : num :=
  let (r, rest) :=
    accumulate (firstn 8 a) (skipn 8 a) (length a / 8 - 1) in
  sum_loop (combine8 r) rest.

(** The recursion is on a bound of the number of cells. *)
Fixpoint pairwise_sum (bound : nat) (a : list num) : num :=
  let n := length a in
  if n <? 8 then sum_loop zero a
  else if n <=? 128 then block_sum a
  else
    match bound with
    | O => zero
    | S k =>
        let n2 := n / 2 - (n / 2) mod 8 in
        fadd (pairwise_sum k (firstn n2 a)) (pairwise_sum k (skipn n2 a))
    end.

Definition np_sum (a : list num) : num :=
  fadd zero (pairwise_sum (length a) a).

Definition np_ones_like (a : list num) : list num := map (fun _ => one) a.

(** [~(np.isnan(pattern1_flat) | np.isnan(pattern2_flat))] *)
Definition valid_mask (pattern1_flat pattern2_flat : list num) : list bool :=
  zip_with (fun a b => negb (np_isnan a || np_isnan b))
           pattern1_flat pattern2_flat.

(** The block "Handle weights": the weights of the valid cells. *)
Definition weights_valid (pattern1 : ndarray num)
    (weights : option (ndarray num)) (mask : list bool)
  : result (list num) :=
  match weights with
  | None => Ok (np_ones_like (mask_index (flatten pattern1) mask))
  | Some w =>
      if negb (shape_eqb (shape w) (shape pattern1))
      then Raise WeightShapeMismatch
      else Ok (mask_index (flatten w) mask)
  end.

(** [weights_valid / np.sum(weights_valid)] *)
Definition normalize (wv : list num) : list num :=
  let s := np_sum wv in map (fun w => fdiv w s) wv.

(** Lines 113-136, on the valid cells and the normalized weights. *)
Definition correlate (pattern1_valid pattern2_valid wv : list num)
    (centered : bool) : result num :=
  let pattern1_mean := np_sum (zip_with fmul pattern1_valid wv) in
  let pattern2_mean := np_sum (zip_with fmul pattern2_valid wv) in
  let pattern1_centered :=
    if centered then map (fun x => fsub x pattern1_mean) pattern1_valid
    else pattern1_valid in
  let pattern2_centered :=
    if centered then map (fun x => fsub x pattern2_mean) pattern2_valid
    else pattern2_valid in
  let covariance :=
    np_sum (zip_with fmul (zip_with fmul wv pattern1_centered)
                     pattern2_centered) in
  let std1 :=
    np_sqrt (np_sum (zip_with fmul wv
                       (map (fun x => fmul x x) pattern1_centered))) in
  let std2 :=
    np_sqrt (np_sum (zip_with fmul wv
                       (map (fun x => fmul x x) pattern2_centered))) in
  if feq std1 zero || feq std2 zero
     || flt (np_abs std1) tol || flt (np_abs std2) tol
  then Raise ZeroVariance
  else Ok (fdiv covariance (fmul std1 std2)).

Definition calculate_pattern_correlation (pattern1 pattern2 : ndarray num)
    (weights : option (ndarray num)) (centered : bool) : result num :=
  if negb (shape_eqb (shape pattern1) (shape pattern2))
  then Raise PatternShapeMismatch
  else
    let pattern1_flat := flatten pattern1 in
    let pattern2_flat := flatten pattern2 in
    let mask := valid_mask pattern1_flat pattern2_flat in
    if negb (np_any mask) then Raise NoValidData
    else
      let pattern1_valid := mask_index pattern1_flat mask in
      let pattern2_valid := mask_index pattern2_flat mask in
      match weights_valid pattern1 weights mask with
      | Raise e => Raise e
      | Ok wv => correlate pattern1_valid pattern2_valid (normalize wv) centered
      end.

End Correlation.

(** ** The xarray wrapper *)

(** A labelled array: dimension names, cells, and the coordinate values
    of the dimensions that carry some. *)
Record DataArray (A : Type) : Type := mk_DataArray {
  dims : list string;
  values : ndarray A;
  coords : list (string * list A)
}.
Arguments mk_DataArray {A} _ _ _.
Arguments dims {A} _.
Arguments values {A} _.
Arguments coords {A} _.

Fixpoint index_of (name : string) (names : list string) : nat :=
  match names with
  | [] => 0
  | n :: rest => if String.eqb name n then 0 else S (index_of name rest)
  end.

Fixpoint remove_nth {A} (k : nat) (l : list A) : list A :=
  match k, l with
  | _, [] => []
  | O, _ :: t => t
  | S k', x :: t => x :: remove_nth k' t
  end.

Fixpoint lookup {A} (name : string) (cs : list (string * A)) : option A :=
  match cs with
  | [] => None
  | (n, v) :: rest => if String.eqb name n then Some v else lookup name rest
  end.

Section Spatial.
Context {D : Dtype}.
(** [np.cos] and [np.deg2rad], library functions. *)
Variables np_cos np_deg2rad : num -> num.

(** [data1[lat_dim].values]: the coordinate of the dimension, or its
    positions 0, 1, ... when it carries none. *)
Definition coord_values (data1 : DataArray num) (lat_dim : string)
  : list num :=
  match lookup lat_dim (coords data1) with
  | Some v => v
  | None =>
      map of_nat
          (seq 0 (nth (index_of lat_dim (dims data1))
                      (shape (values data1)) 0))
  end.

(** [weight_array * xr.ones_like(data1)]: the latitude dimension comes
    first, the other dimensions of [data1] follow in their order. *)
Definition broadcast_weights (weights : list num) (lat_dim : string)
    (data1 : DataArray num) : DataArray num :=
  let others :=
    remove_nth (index_of lat_dim (dims data1)) (shape (values data1)) in
  mk_DataArray
    (lat_dim :: remove_nth (index_of lat_dim (dims data1)) (dims data1))
    (mk_ndarray (List.length weights :: others)
       (flat_map (fun w => repeat (fmul w one) (size_of others)) weights))
    [(lat_dim, coord_values data1 lat_dim)].

Definition calculate_spatial_correlation (data1 data2 : DataArray num)
    (lat_dim lon_dim : string) (area_weighted : bool) : result num :=
  let weight_array :=
    if area_weighted then
      if negb (existsb (String.eqb lat_dim) (dims data1))
      then Raise LatDimNotFound
      else
        let lats := coord_values data1 lat_dim in
        let weights := map (fun x => np_cos (np_deg2rad x)) lats in
        Ok (Some (broadcast_weights weights lat_dim data1))
    else Ok None in
  match weight_array with
  | Raise e => Raise e
  | Ok w =>
      calculate_pattern_correlation (values data1) (values data2)
        (option_map values w) true
  end.

End Spatial.

(** ** The correlation as a formula over the valid positions *)

Section Formula.
Context {D : Dtype}.

Definition valid_at (p1 p2 : list num) (i : nat) : bool :=
  negb (np_isnan (nth i p1 zero) || np_isnan (nth i p2 zero)).

Definition valid_positions (p1 p2 : ndarray num) : list nat :=
  filter (valid_at (data p1) (data p2)) (seq 0 (List.length (data p1))).

(** No position is valid: at every position one of the two patterns
    holds a NaN. *)
Definition no_valid_position (p1 p2 : ndarray num) : Prop :=
  forall i, i < length (data p1) ->
    np_isnan (nth i (data p1) zero) = true \/
    np_isnan (nth i (data p2) zero) = true.

Definition sum_over (idx : list nat) (f : nat -> num) : num :=
  np_sum (map f idx).

Definition raw_weight (weights : option (ndarray num)) (i : nat) : num :=
  match weights with
  | None => one
  | Some w => nth i (data w) zero
  end.

Variables (p1 p2 : ndarray num) (weights : option (ndarray num)).
Variable centered : bool.

Definition norm_weight (i : nat) : num :=
  fdiv (raw_weight weights i)
       (sum_over (valid_positions p1 p2) (raw_weight weights)).

Definition weighted_mean (p : ndarray num) : num :=
  sum_over (valid_positions p1 p2)
           (fun i => fmul (nth i (data p) zero) (norm_weight i)).

Definition centered_value (p : ndarray num) (i : nat) : num :=
  if centered then fsub (nth i (data p) zero) (weighted_mean p)
  else nth i (data p) zero.

Definition weighted_cov : num :=
  sum_over (valid_positions p1 p2)
    (fun i => fmul (fmul (norm_weight i) (centered_value p1 i))
                   (centered_value p2 i)).

Definition weighted_var (p : ndarray num) : num :=
  sum_over (valid_positions p1 p2)
    (fun i => fmul (norm_weight i)
                   (fmul (centered_value p i) (centered_value p i))).

Definition weighted_std (p : ndarray num) : num := np_sqrt (weighted_var p).

Definition pearson_formula : num :=
  fdiv weighted_cov (fmul (weighted_std p1) (weighted_std p2)).

(** The test of line 131. *)
Definition degenerate (std1 std2 : num) : bool :=
  feq std1 zero || feq std2 zero
  || flt (np_abs std1) tol || flt (np_abs std2) tol.

End Formula.

(** An element type in which a value above the tolerance passes the
    test of line 131. *)
Class DtypeLaws (D : Dtype) : Prop := {
  above_tol :
    forall s : num,
      flt tol s = true -> feq s zero = false /\ flt (np_abs s) tol = false
}.

(** Some position is valid in both patterns. *)
Definition has_valid_position {D : Dtype} (p1 p2 : ndarray num) : Prop :=
  exists i, i < length (data p1) /\
    np_isnan (nth i (data p1) zero) = false /\
    np_isnan (nth i (data p2) zero) = false.

(** ** The formula over the reals, for the exact instance *)

Definition rsum (idx : list nat) (f : nat -> R) : R :=
  fold_right (fun i acc => f i + acc)%R 0%R idx.

Definition real_of (x : xreal) : R :=
  match x with
  | EFin r => r
  | ENaN => 0%R
  end.

Definition is_fin (x : xreal) : Prop := exists r, x = EFin r.

Section RealFormula.
Local Open Scope R_scope.
Variables (p1 p2 : ndarray (@num exact)) (weights : option (ndarray (@num exact))).
Variable centered : bool.

Definition rcell (p : ndarray (@num exact)) (i : nat) : R :=
  real_of (nth i (data p) (@zero exact)).

Definition rraw (i : nat) : R := real_of (raw_weight (D:=exact) weights i).

Definition rtotal : R := rsum (valid_positions (D:=exact) p1 p2) rraw.

Definition rweight (i : nat) : R := rraw i / rtotal.

Definition rmean (p : ndarray (@num exact)) : R :=
  rsum (valid_positions (D:=exact) p1 p2) (fun i => rcell p i * rweight i).

Definition rcentered (p : ndarray (@num exact)) (i : nat) : R :=
  if centered then rcell p i - rmean p else rcell p i.

Definition rcov : R :=
  rsum (valid_positions (D:=exact) p1 p2)
       (fun i => rweight i * rcentered p1 i * rcentered p2 i).

Definition rvar (p : ndarray (@num exact)) : R :=
  rsum (valid_positions (D:=exact) p1 p2)
       (fun i => rweight i * (rcentered p i * rcentered p i)).

(** The supplied weights are numbers at the valid positions. *)
Definition finite_weights : Prop :=
  forall i, In i (valid_positions (D:=exact) p1 p2) ->
    is_fin (raw_weight (D:=exact) weights i).

End RealFormula.

(** Every cell of the array is the number [c]. *)
Definition constant_array (a : ndarray (@num exact)) (c : R) : Prop :=
  forall x, In x (data a) -> x = EFin c.

(** The weights are numbers at the valid positions, none is negative
    and one at least is positive. *)
Definition nonnegative_weights (p1 p2 w : ndarray (@num exact)) : Prop :=
  (forall i, In i (valid_positions (D:=exact) p1 p2) ->
     exists r, nth i (data w) (@zero exact) = EFin r /\ (0 <= r)%R) /\
  (exists i, In i (valid_positions (D:=exact) p1 p2) /\
     exists r, nth i (data w) (@zero exact) = EFin r /\ (0 < r)%R).

(** A one-dimensional array. *)
Definition arr1 {A} (l : list A) : ndarray A := mk_ndarray [List.length l] l.

(** ** Arrays built from arrays *)

(** The one-dimensional array of the cells of [a] at the positions that
    are valid in [p1] and [p2]. *)
Definition valid_cells {D : Dtype} (p1 p2 a : ndarray num) : ndarray num :=
  arr1 (mask_index (flatten a) (valid_mask (data p1) (data p2))).

(** An elementwise operation, [f(a)]. *)
Definition map_array {A B} (f : A -> B) (a : ndarray A) : ndarray B :=
  mk_ndarray (shape a) (map f (data a)).

(** [-x], [x + b] and [k * x] in exact arithmetic. *)
Definition xneg (x : xreal) : xreal :=
  match x with
  | EFin r => EFin (- r)
  | ENaN => ENaN
  end.

Definition xshift (b : R) (x : xreal) : xreal := xlift2 Rplus x (EFin b).

Definition xscale (k : R) (x : xreal) : xreal := xlift2 Rmult (EFin k) x.

(** [np.cos] and [np.deg2rad] in exact arithmetic. *)
Definition xcos (x : xreal) : xreal :=
  match x with
  | EFin r => EFin (cos r)
  | ENaN => ENaN
  end.

Definition xdeg2rad (x : xreal) : xreal :=
  match x with
  | EFin r => EFin (r * (PI / 180))
  | ENaN => ENaN
  end.

(** ** Labelled arrays as xarray builds them *)

(** One name per axis, no name twice, and a coordinate of a dimension
    has the length of that dimension. *)
Definition wf_DataArray {A} (d : DataArray A) : Prop :=
  well_formed (values d) /\
  List.length (dims d) = List.length (shape (values d)) /\
  NoDup (dims d) /\
  forall name v, lookup name (coords d) = Some v -> In name (dims d) ->
    List.length v = nth (index_of name (dims d)) (shape (values d)) 0.

(** ** The analysis script (scripts/analyze_pattern_correlation.py) *)

(** An opened dataset: its variables by name. *)
Definition Dataset (A : Type) : Type := list (string * DataArray A).

(** The names tried by [load_sst_data], in its order. *)
Definition sst_names : list string := ["sst"; "tos"; "SST"; "TOS"]%string.

(** The [for ... else] loop of lines 52-57: the variable of the first
    name that the dataset contains. *)
Fixpoint find_variable {A} (names : list string) (ds : Dataset A)
  : option (DataArray A) :=
  match names with
  | [] => None
  | var_name :: rest =>
      match lookup var_name ds with
      | Some v => Some v
      | None => find_variable rest ds
      end
  end.

(** [DataArray.squeeze()]: the axes of length 1 are dropped, the cells
    stay. *)
Fixpoint squeeze_dims (names : list string) (sh : list nat) : list string :=
  match names, sh with
  | n :: names', k :: sh' =>
      if Nat.eqb k 1 then squeeze_dims names' sh'
      else n :: squeeze_dims names' sh'
  | _, _ => []
  end.

Definition squeeze_shape (sh : list nat) : list nat :=
  filter (fun k => negb (Nat.eqb k 1)) sh.

Definition squeeze {A} (d : DataArray A) : DataArray A :=
  mk_DataArray (squeeze_dims (dims d) (shape (values d)))
    (mk_ndarray (squeeze_shape (shape (values d))) (data (values d)))
    (coords d).

(** The two [ValueError]s of [load_sst_data]. *)
Inductive LoadError : Type :=
| ObsVariableNotFound       (* "SST variable not found in {obs_file}. ..." *)
| ModelVariableNotFound.    (* "SST variable not found in {model_file}. ..." *)

(** [load_sst_data], from the two opened datasets on. *)
Definition load_sst_data {A} (obs_ds model_ds : Dataset A)
  : LoadError + DataArray A * DataArray A :=
  match find_variable sst_names obs_ds with
  | None => inl ObsVariableNotFound
  | Some obs_data =>
      match find_variable sst_names model_ds with
      | None => inl ModelVariableNotFound
      | Some model_data => inr (squeeze obs_data, squeeze model_data)
      end
  end.

(** Tactics that evaluate the real formula on concrete arrays. *)
Ltac unfold_reals :=
  cbv [rvar rcov rmean rcentered rweight rtotal rraw rcell rsum real_of
       raw_weight valid_positions valid_at filter seq nth data length arr1
       fold_right negb orb np_isnan zero one exact xisnan].

Ltac unfold_reals_in H :=
  cbv [rvar rcov rmean rcentered rweight rtotal rraw rcell rsum real_of
       raw_weight valid_positions valid_at filter seq nth data length arr1
       fold_right negb orb np_isnan zero one exact xisnan] in H.

Ltac finite_cells :=
  let i := fresh "i" in
  let Hi := fresh "Hi" in
  intros i Hi; unfold_reals_in Hi;
  repeat (destruct Hi as [<- | Hi]; [eexists; reflexivity|]);
  destruct Hi.

(** * Facts that hold for every element type *)

Section ListFacts.
Variables A B C : Type.

Lemma zip_with_map (f : A -> B -> C) (I : Type) (g : I -> A) (h : I -> B)
    (idx : list I) :
  zip_with f (map g idx) (map h idx) = map (fun i => f (g i) (h i)) idx.
Proof.
  induction idx as [|i idx IH]; simpl; [reflexivity|].
  now rewrite IH.
Qed.

Lemma zip_with_length (f : A -> B -> C) (xs : list A) (ys : list B) :
  length xs = length ys -> length (zip_with f xs ys) = length xs.
Proof.
  revert ys; induction xs as [|x xs IH]; intros [|y ys] H; simpl in *;
    try discriminate; auto.
Qed.

Lemma zip_with_nth (f : A -> B -> C) (xs : list A) (ys : list B)
    (i : nat) (a : A) (b : B) (c : C) :
  length xs = length ys -> i < length xs ->
  nth i (zip_with f xs ys) c = f (nth i xs a) (nth i ys b).
Proof.
  revert ys i; induction xs as [|x xs IH]; intros [|y ys] i H Hi;
    simpl in *; try discriminate; try lia.
  destruct i; [reflexivity|]. apply IH; lia.
Qed.

(** Indexing by a mask selects the cells at the positions the mask
    marks, in increasing order. *)
Lemma mask_index_shift (l : list A) (mask : list bool) (d : A) (k : nat) :
  length l = length mask ->
  mask_index l mask =
  map (fun i => nth (i - k) l d)
      (filter (fun i => nth (i - k) mask false) (seq k (length l))).
Proof.
  revert mask k; induction l as [|x l IH]; intros [|b mask] k H;
    try discriminate; auto.
  injection H as H.
  assert (E1 : filter (fun i => nth (i - k) (b :: mask) false)
                      (seq (S k) (length l)) =
               filter (fun i => nth (i - S k) mask false)
                      (seq (S k) (length l))).
  { apply filter_ext_in. intros i Hi. apply in_seq in Hi.
    replace (i - k) with (S (i - S k)) by lia. reflexivity. }
  assert (E2 : forall idx, (forall i, In i idx -> S k <= i) ->
               map (fun i => nth (i - k) (x :: l) d) idx =
               map (fun i => nth (i - S k) l d) idx).
  { intros idx Hidx. apply map_ext_in. intros i Hi. apply Hidx in Hi.
    replace (i - k) with (S (i - S k)) by lia. reflexivity. }
  assert (Hge : forall i,
             In i (filter (fun i => nth (i - S k) mask false)
                     (seq (S k) (length l))) -> S k <= i).
  { intros i Hi. apply filter_In in Hi. destruct Hi as [Hi _].
    apply in_seq in Hi. lia. }
  cbn [mask_index length seq filter].
  rewrite E1, Nat.sub_diag.
  change (nth 0 (b :: mask) false) with b.
  destruct b; cbn [map]; rewrite ?Nat.sub_diag;
    change (nth 0 (x :: l) d) with x;
    rewrite (E2 _ Hge), <- (IH mask (S k) H); reflexivity.
Qed.

Lemma mask_index_positions (l : list A) (mask : list bool) (d : A) :
  length l = length mask ->
  mask_index l mask =
  map (fun i => nth i l d)
      (filter (fun i => nth i mask false) (seq 0 (length l))).
Proof.
  intros H. rewrite (mask_index_shift l mask d 0 H).
  rewrite (map_ext (fun i => nth (i - 0) l d) (fun i => nth i l d)).
  - f_equal. apply filter_ext. intros i. now rewrite Nat.sub_0_r.
  - intros i. now rewrite Nat.sub_0_r.
Qed.

Lemma np_any_positions (mask : list bool) :
  np_any mask = false <->
  filter (fun i => nth i mask false) (seq 0 (length mask)) = [].
Proof.
  unfold np_any. split.
  - intros H. 
    assert (Hall : forall i, nth i mask false = false).
    { intros i. destruct (nth i mask false) eqn:E; [|reflexivity].
      assert (Hin : In true mask).
      { destruct (Nat.lt_ge_cases i (length mask)) as [Hlt|Hge].
        - rewrite <- E. now apply nth_In.
        - rewrite nth_overflow in E by lia. discriminate. }
      assert (Hex : existsb (fun b => b) mask = true)
        by (apply existsb_exists; exists true; auto).
      congruence. }
    induction (seq 0 (length mask)) as [|i idx IH]; simpl; auto.
    now rewrite Hall.
  - intros H. destruct (existsb (fun b => b) mask) eqn:E; [|reflexivity].
    apply existsb_exists in E. destruct E as [b [Hin Hb]]. subst b.
    destruct (In_nth _ _ false Hin) as [i [Hi Hn]].
    assert (Hf : In i (filter (fun i => nth i mask false)
                         (seq 0 (length mask)))).
    { apply filter_In. split; [apply in_seq; lia | exact Hn]. }
    rewrite H in Hf. destruct Hf.
Qed.

End ListFacts.

Lemma shape_eqb_eq (s t : list nat) : shape_eqb s t = true <-> s = t.
Proof.
  unfold shape_eqb. destruct (list_eq_dec Nat.eq_dec s t); split;
    congruence.
Qed.

Lemma shape_eqb_refl (s : list nat) : shape_eqb s s = true.
Proof. now apply shape_eqb_eq. Qed.

Lemma shape_eqb_neq (s t : list nat) : s <> t -> shape_eqb s t = false.
Proof.
  intros H. destruct (shape_eqb s t) eqn:E; [|reflexivity].
  apply shape_eqb_eq in E. contradiction.
Qed.

Section Generic.
Context {D : Dtype}.

Lemma same_shape_same_length (p1 p2 : ndarray num) :
  shape p1 = shape p2 -> well_formed p1 -> well_formed p2 ->
  length (data p1) = length (data p2).
Proof. unfold well_formed. intros E H1 H2. now rewrite H1, H2, E. Qed.

Lemma valid_mask_length (a b : list num) :
  length a = length b -> length (valid_mask a b) = length a.
Proof. apply zip_with_length. Qed.

Lemma valid_mask_positions (p1 p2 : ndarray num) :
  length (data p1) = length (data p2) ->
  filter (fun i => nth i (valid_mask (data p1) (data p2)) false)
         (seq 0 (length (data p1))) = valid_positions p1 p2.
Proof.
  intros H. unfold valid_positions. apply filter_ext_in.
  intros i Hi. apply in_seq in Hi. unfold valid_mask, valid_at.
  now rewrite (zip_with_nth _ _ _ _ _ _ _ zero zero false H) by lia.
Qed.

(** The cells the mask keeps are the cells at the valid positions. *)
Lemma mask_index_valid (p1 p2 : ndarray num) (l : list num) :
  length (data p1) = length (data p2) ->
  length l = length (data p1) ->
  mask_index l (valid_mask (data p1) (data p2)) =
  map (fun i => nth i l zero) (valid_positions p1 p2).
Proof.
  intros H Hl.
  rewrite (mask_index_positions _ l _ zero)
    by (now rewrite valid_mask_length).
  now rewrite Hl, valid_mask_positions.
Qed.

Lemma np_any_valid (p1 p2 : ndarray num) :
  length (data p1) = length (data p2) ->
  np_any (valid_mask (data p1) (data p2)) = false <->
  valid_positions p1 p2 = [].
Proof.
  intros H. rewrite np_any_positions, valid_mask_length by exact H.
  now rewrite valid_mask_positions.
Qed.

Lemma normalize_map (idx : list nat) (f : nat -> num) :
  normalize (map f idx) =
  map (fun i => fdiv (f i) (sum_over idx f)) idx.
Proof. unfold normalize, sum_over. now rewrite map_map. Qed.

(** [correlate] on cells and weights read at a list of positions. *)
Lemma correlate_formula (p1 p2 : ndarray num)
    (weights : option (ndarray num)) (centered : bool) :
  let V := valid_positions p1 p2 in
  correlate (map (fun i => nth i (data p1) zero) V)
            (map (fun i => nth i (data p2) zero) V)
            (map (norm_weight p1 p2 weights) V) centered =
  if degenerate (weighted_std p1 p2 weights centered p1)
                (weighted_std p1 p2 weights centered p2)
  then Raise ZeroVariance
  else Ok (pearson_formula p1 p2 weights centered).
Proof.
  intros V. unfold correlate, degenerate, pearson_formula, weighted_std,
    weighted_var, weighted_cov, centered_value, weighted_mean, sum_over.
  fold V. rewrite !zip_with_map.
  destruct centered; rewrite ?map_map, !zip_with_map; reflexivity.
Qed.

(** What the function computes once the three validations pass. *)
Lemma correlation_validated (p1 p2 : ndarray num)
    (weights : option (ndarray num)) (centered : bool) :
  well_formed p1 -> well_formed p2 -> shape p1 = shape p2 ->
  valid_positions p1 p2 <> [] ->
  (forall w, weights = Some w -> well_formed w /\ shape w = shape p1) ->
  calculate_pattern_correlation p1 p2 weights centered =
  if degenerate (weighted_std p1 p2 weights centered p1)
                (weighted_std p1 p2 weights centered p2)
  then Raise ZeroVariance
  else Ok (pearson_formula p1 p2 weights centered).
Proof.
  intros W1 W2 Hs HV Hw.
  pose proof (same_shape_same_length p1 p2 Hs W1 W2) as Hlen.
  unfold calculate_pattern_correlation, flatten.
  rewrite Hs, shape_eqb_refl. cbn [negb].
  destruct (np_any (valid_mask (data p1) (data p2))) eqn:Eany.
  2:{ apply np_any_valid in Eany; [contradiction | exact Hlen]. }
  cbn [negb].
  rewrite (mask_index_valid p1 p2 (data p1) Hlen eq_refl).
  rewrite (mask_index_valid p1 p2 (data p2) Hlen (eq_sym Hlen)).
  assert (Ew : weights_valid p1 weights (valid_mask (data p1) (data p2)) =
               Ok (map (raw_weight weights) (valid_positions p1 p2))).
  { unfold weights_valid, flatten. destruct weights as [w|].
    - destruct (Hw w eq_refl) as [Ww Hsw].
      rewrite Hsw, shape_eqb_refl. cbn [negb].
      rewrite (mask_index_valid p1 p2 (data w) Hlen).
      + reflexivity.
      + unfold well_formed in *. now rewrite Ww, Hsw, W1.
    - rewrite (mask_index_valid p1 p2 (data p1) Hlen eq_refl).
      unfold np_ones_like. now rewrite map_map. }
  rewrite Ew, normalize_map.
  apply (correlate_formula p1 p2 weights centered).
Qed.

End Generic.

Lemma filter_nil_iff (A : Type) (f : A -> bool) (l : list A) :
  filter f l = [] <-> forall x, In x l -> f x = false.
Proof.
  induction l as [|a l IH]; simpl.
  - split; [intros _ x [] | reflexivity].
  - destruct (f a) eqn:E; split.
    + discriminate.
    + intros H. specialize (H a (or_introl eq_refl)). congruence.
    + intros H x [<-|Hx]; [exact E | now apply IH].
    + intros H. apply IH. intros x Hx. apply H. now right.
Qed.

Lemma existsb_eqb_In (name : string) (names : list string) :
  existsb (String.eqb name) names = true <-> In name names.
Proof.
  rewrite existsb_exists. split.
  - intros [x [Hx E]]. apply String.eqb_eq in E. now subst.
  - intros H. exists name. split; [exact H | apply String.eqb_refl].
Qed.

Section Validation.
Context {D : Dtype}.

Lemma valid_positions_nil (p1 p2 : ndarray num) :
  valid_positions p1 p2 = [] <-> no_valid_position p1 p2.
Proof.
  unfold valid_positions, no_valid_position, valid_at.
  rewrite filter_nil_iff. split; intros H i Hi.
  - assert (Hin : In i (seq 0 (length (data p1)))) by (apply in_seq; lia).
    specialize (H i Hin). apply negb_false_iff, orb_true_iff in H.
    exact H.
  - apply in_seq in Hi. apply negb_false_iff, orb_true_iff, H. lia.
Qed.

Lemma mismatch_first (p1 p2 : ndarray num) weights centered :
  shape p1 <> shape p2 ->
  calculate_pattern_correlation p1 p2 weights centered =
  Raise PatternShapeMismatch.
Proof.
  intros H. unfold calculate_pattern_correlation.
  now rewrite (shape_eqb_neq _ _ H).
Qed.

Lemma empty_second (p1 p2 : ndarray num) weights centered :
  well_formed p1 -> well_formed p2 -> shape p1 = shape p2 ->
  valid_positions p1 p2 = [] ->
  calculate_pattern_correlation p1 p2 weights centered = Raise NoValidData.
Proof.
  intros W1 W2 Hs HV. unfold calculate_pattern_correlation, flatten.
  rewrite Hs, shape_eqb_refl. cbn [negb].
  apply np_any_valid in HV;
    [| exact (same_shape_same_length p1 p2 Hs W1 W2)].
  now rewrite HV.
Qed.

Lemma weights_third (p1 p2 w : ndarray num) centered :
  well_formed p1 -> well_formed p2 -> shape p1 = shape p2 ->
  valid_positions p1 p2 <> [] -> shape w <> shape p1 ->
  calculate_pattern_correlation p1 p2 (Some w) centered =
  Raise WeightShapeMismatch.
Proof.
  intros W1 W2 Hs HV Hw. unfold calculate_pattern_correlation, flatten.
  rewrite Hs, shape_eqb_refl. cbn [negb].
  destruct (np_any (valid_mask (data p1) (data p2))) eqn:Eany.
  2:{ apply np_any_valid in Eany;
        [contradiction | exact (same_shape_same_length p1 p2 Hs W1 W2)]. }
  cbn [negb]. unfold weights_valid.
  now rewrite (shape_eqb_neq _ _ Hw).
Qed.

Lemma correlate_not_empty_error (a b w : list num) centered :
  correlate a b w centered <> Raise NoValidData.
Proof.
  unfold correlate.
  match goal with |- (if ?c then _ else _) <> _ => destruct c end;
    discriminate.
Qed.

Lemma not_empty_error (p1 p2 : ndarray num) weights centered :
  well_formed p1 -> well_formed p2 -> shape p1 = shape p2 ->
  valid_positions p1 p2 <> [] ->
  calculate_pattern_correlation p1 p2 weights centered <> Raise NoValidData.
Proof.
  intros W1 W2 Hs HV. unfold calculate_pattern_correlation, flatten.
  rewrite Hs, shape_eqb_refl. cbn [negb].
  destruct (np_any (valid_mask (data p1) (data p2))) eqn:Eany.
  2:{ apply np_any_valid in Eany;
        [contradiction | exact (same_shape_same_length p1 p2 Hs W1 W2)]. }
  cbn [negb]. unfold weights_valid. destruct weights as [w|].
  - destruct (negb (shape_eqb (shape w) (shape p1)));
      [discriminate | apply correlate_not_empty_error].
  - apply correlate_not_empty_error.
Qed.

End Validation.

Section FormulaFacts.
Context {D : Dtype}.

Lemma has_valid_positions (p1 p2 : ndarray num) :
  has_valid_position p1 p2 <-> valid_positions p1 p2 <> [].
Proof.
  unfold has_valid_position, valid_positions. split.
  - intros [i [Hi [H1 H2]]] E.
    assert (Hin : In i (filter (valid_at (data p1) (data p2))
                          (seq 0 (length (data p1))))).
    { apply filter_In. split; [apply in_seq; lia|].
      unfold valid_at. now rewrite H1, H2. }
    rewrite E in Hin. destruct Hin.
  - destruct (filter _ _) as [|i idx] eqn:E; [congruence|]. intros _.
    assert (Hin : In i (filter (valid_at (data p1) (data p2))
                          (seq 0 (length (data p1)))))
      by (rewrite E; now left).
    apply filter_In in Hin. destruct Hin as [Hi Hv]. apply in_seq in Hi.
    unfold valid_at in Hv. apply negb_true_iff, orb_false_iff in Hv.
    exists i. split; [lia | exact Hv].
Qed.

Lemma has_valid_not_none (p1 p2 : ndarray num) :
  has_valid_position p1 p2 -> ~ no_valid_position p1 p2.
Proof.
  intros [i [Hi [H1 H2]]] H. destruct (H i Hi); congruence.
Qed.

Lemma valid_position_lt (p1 p2 : ndarray num) (i : nat) :
  In i (valid_positions p1 p2) ->
  i < length (data p1) /\
  np_isnan (nth i (data p1) zero) = false /\
  np_isnan (nth i (data p2) zero) = false.
Proof.
  unfold valid_positions. intros H. apply filter_In in H.
  destruct H as [Hi Hv]. apply in_seq in Hi.
  unfold valid_at in Hv. apply negb_true_iff, orb_false_iff in Hv.
  split; [lia | exact Hv].
Qed.

Lemma sum_over_ext (idx : list nat) (f g : nat -> num) :
  (forall i, In i idx -> f i = g i) -> sum_over idx f = sum_over idx g.
Proof.
  intros H. unfold sum_over. f_equal. now apply map_ext_in.
Qed.

(** The formula depends on the weights only through the normalized
    weights at the valid positions. *)
Lemma formula_ext (p1 p2 : ndarray num) (w w' : option (ndarray num))
    (centered : bool) :
  (forall i, In i (valid_positions p1 p2) ->
     norm_weight p1 p2 w i = norm_weight p1 p2 w' i) ->
  weighted_std p1 p2 w centered p1 = weighted_std p1 p2 w' centered p1 /\
  weighted_std p1 p2 w centered p2 = weighted_std p1 p2 w' centered p2 /\
  pearson_formula p1 p2 w centered = pearson_formula p1 p2 w' centered.
Proof.
  intros H.
  assert (Hm : forall p, weighted_mean p1 p2 w p = weighted_mean p1 p2 w' p).
  { intros p. unfold weighted_mean. apply sum_over_ext.
    intros i Hi. now rewrite H. }
  assert (Hc : forall p i, centered_value p1 p2 w centered p i =
                           centered_value p1 p2 w' centered p i).
  { intros p i. unfold centered_value. now rewrite Hm. }
  assert (Hv : forall p, weighted_var p1 p2 w centered p =
                         weighted_var p1 p2 w' centered p).
  { intros p. unfold weighted_var. apply sum_over_ext.
    intros i Hi. now rewrite H, Hc. }
  assert (Hcov : weighted_cov p1 p2 w centered =
                 weighted_cov p1 p2 w' centered).
  { unfold weighted_cov. apply sum_over_ext.
    intros i Hi. now rewrite H, !Hc. }
  unfold pearson_formula, weighted_std. now rewrite !Hv, Hcov.
Qed.

End FormulaFacts.

(** * The recursion of the pairwise sum *)

(** The halves of an array of more than 128 cells are shorter than the
    array. *)
Lemma split_lengths (n k : nat) :
  128 < n -> n <= S k ->
  n / 2 - (n / 2) mod 8 <= k /\ n - (n / 2 - (n / 2) mod 8) <= k.
Proof.
  intros H1 H2.
  pose proof (Nat.Div0.mul_div_le n 2).
  pose proof (Nat.mod_upper_bound (n / 2) 8).
  assert (64 <= n / 2) by (apply (Nat.div_le_lower_bound n 2 64); lia).
  lia.
Qed.

(** The number of cells is a bound large enough: a larger one gives the
    same sum, for every element type. *)
Lemma pairwise_sum_bound {D : Dtype} (b b' : nat) (a : list num) :
  length a <= b -> length a <= b' -> pairwise_sum b a = pairwise_sum b' a.
Proof.
  revert b' a; induction b as [|k IH]; intros [|k'] a H H';
    try reflexivity.
  - destruct a; simpl in H; [reflexivity | lia].
  - destruct a; simpl in H'; [reflexivity | lia].
  - cbn [pairwise_sum].
    destruct (length a <? 8) eqn:E8; [reflexivity|].
    destruct (length a <=? 128) eqn:E128; [reflexivity|].
    apply Nat.leb_gt in E128.
    destruct (split_lengths (length a) k E128 H) as [A1 A2].
    destruct (split_lengths (length a) k' E128 H') as [B1 B2].
    rewrite (IH k' (firstn _ a)), (IH k' (skipn _ a)); try reflexivity;
      rewrite ?length_firstn, ?length_skipn; lia.
Qed.

(** * The order of summation *)

(** Where addition is associative and commutative with unit 0, as it
    is over the reals, [np.sum] is the sum of the cells in any order:
    the accumulators and the splitting do not change the value. *)
Section SumOrder.
Context {D : Dtype}.
Hypothesis fadd_comm : forall x y : num, fadd x y = fadd y x.
Hypothesis fadd_assoc :
  forall x y z : num, fadd x (fadd y z) = fadd (fadd x y) z.
Hypothesis fadd_zero : forall x : num, fadd zero x = x.

Lemma fadd_zero_r (x : num) : fadd x zero = x.
Proof. now rewrite fadd_comm, fadd_zero. Qed.

Lemma fadd_swap (a b c d : num) :
  fadd (fadd a b) (fadd c d) = fadd (fadd a c) (fadd b d).
Proof.
  rewrite !fadd_assoc. f_equal.
  rewrite <- !fadd_assoc. f_equal. apply fadd_comm.
Qed.

Lemma sum_loop_total (a : list num) (res : num) :
  sum_loop res a = fadd res (fold_right fadd zero a).
Proof.
  unfold sum_loop. revert res; induction a as [|x a IH]; intros res; simpl.
  - now rewrite fadd_zero_r.
  - now rewrite IH, fadd_assoc.
Qed.

Lemma total_app (a b : list num) :
  fold_right fadd zero (a ++ b) =
  fadd (fold_right fadd zero a) (fold_right fadd zero b).
Proof.
  induction a as [|x a IH]; simpl.
  - now rewrite fadd_zero.
  - now rewrite IH, fadd_assoc.
Qed.

Lemma total_zip (r g : list num) :
  length r = length g ->
  fold_right fadd zero (zip_with fadd r g) =
  fadd (fold_right fadd zero r) (fold_right fadd zero g).
Proof.
  revert g; induction r as [|x r IH]; intros [|y g] H; simpl in *;
    try discriminate.
  - now rewrite fadd_zero.
  - rewrite IH by lia. apply fadd_swap.
Qed.

Lemma accumulate_total (rows : nat) (r a : list num) :
  length r = 8 -> 8 * rows <= length a ->
  length (fst (accumulate r a rows)) = 8 /\
  fadd (fold_right fadd zero (fst (accumulate r a rows)))
       (fold_right fadd zero (snd (accumulate r a rows))) =
  fadd (fold_right fadd zero r) (fold_right fadd zero a).
Proof.
  revert r a; induction rows as [|k IH]; intros r a Hr Ha;
    cbn [accumulate fst snd]; [now split|].
  assert (Hf : length (firstn 8 a) = 8) by (rewrite length_firstn; lia).
  destruct (IH (zip_with fadd r (firstn 8 a)) (skipn 8 a)) as [H1 H2].
  - rewrite zip_with_length; lia.
  - rewrite length_skipn. lia.
  - split; [exact H1|]. rewrite H2, total_zip by lia.
    rewrite <- fadd_assoc, <- total_app. now rewrite firstn_skipn.
Qed.

Lemma combine8_total (r : list num) :
  length r = 8 -> combine8 r = fold_right fadd zero r.
Proof.
  intros H. do 9 (destruct r as [|? r]; try discriminate).
  cbn [combine8 fold_right]. rewrite fadd_zero_r.
  now rewrite !fadd_assoc.
Qed.

Lemma block_sum_total (a : list num) :
  8 <= length a -> block_sum a = fold_right fadd zero a.
Proof.
  intros H. unfold block_sum.
  destruct (accumulate_total (length a / 8 - 1) (firstn 8 a) (skipn 8 a))
    as [H1 H2].
  - rewrite length_firstn. lia.
  - rewrite length_skipn.
    pose proof (Nat.Div0.mul_div_le (length a) 8). lia.
  - destruct (accumulate _ _ _) as [r rest]. cbn [fst snd] in *.
    rewrite sum_loop_total, combine8_total by exact H1.
    rewrite H2, <- total_app. now rewrite firstn_skipn.
Qed.

Lemma pairwise_sum_total (bound : nat) (a : list num) :
  length a <= bound -> pairwise_sum bound a = fold_right fadd zero a.
Proof.
  revert a; induction bound as [|k IH]; intros a H.
  - destruct a; [|simpl in H; lia]. cbn. reflexivity.
  - cbn [pairwise_sum].
    destruct (length a <? 8) eqn:E8.
    { now rewrite sum_loop_total, fadd_zero. }
    apply Nat.ltb_ge in E8.
    destruct (length a <=? 128) eqn:E128.
    { now apply block_sum_total. }
    apply Nat.leb_gt in E128.
    destruct (split_lengths (length a) k E128 H) as [A1 A2].
    rewrite !IH.
    + rewrite <- total_app. now rewrite firstn_skipn.
    + rewrite length_skipn. lia.
    + rewrite length_firstn. lia.
Qed.

Lemma np_sum_total (a : list num) : np_sum a = fold_right fadd zero a.
Proof.
  unfold np_sum. now rewrite pairwise_sum_total, fadd_zero.
Qed.

End SumOrder.

(** * Facts of the exact instance *)

Section ExactFacts.
Local Open Scope R_scope.

Lemma rtol_pos : 0 < rtol.
Proof. unfold rtol. apply Rinv_0_lt_compat. lra. Qed.

Lemma xdiv_fin (a b : R) : b <> 0 -> xdiv (EFin a) (EFin b) = EFin (a / b).
Proof. intros H. simpl. destruct (Req_dec_T b 0); [contradiction|reflexivity]. Qed.

Lemma xdiv_zero (a : R) : xdiv (EFin a) (EFin 0) = ENaN.
Proof. simpl. destruct (Req_dec_T 0 0); [reflexivity|congruence]. Qed.

Lemma xsqrt_fin (a : R) : 0 <= a -> xsqrt (EFin a) = EFin (sqrt a).
Proof. intros H. simpl. destruct (Rlt_dec a 0); [lra|reflexivity]. Qed.

Lemma xsqrt_neg (a : R) : a < 0 -> xsqrt (EFin a) = ENaN.
Proof. intros H. simpl. destruct (Rlt_dec a 0); [reflexivity|lra]. Qed.

Lemma xeq_true (a b : R) : xeq (EFin a) (EFin b) = true <-> a = b.
Proof. simpl. destruct (Req_dec_T a b); split; congruence. Qed.

Lemma xeq_false (a b : R) : xeq (EFin a) (EFin b) = false <-> a <> b.
Proof. simpl. destruct (Req_dec_T a b); split; congruence. Qed.

Lemma xlt_true (a b : R) : xlt (EFin a) (EFin b) = true <-> a < b.
Proof. simpl. destruct (Rlt_dec a b); split; congruence. Qed.

Lemma xlt_false (a b : R) : xlt (EFin a) (EFin b) = false <-> ~ a < b.
Proof. simpl. destruct (Rlt_dec a b); split; congruence. Qed.

Lemma not_nan_fin (x : xreal) : xisnan x = false -> x = EFin (real_of x).
Proof. destruct x; simpl; [discriminate | reflexivity]. Qed.

Lemma is_fin_real_of (x : xreal) : is_fin x -> x = EFin (real_of x).
Proof. intros [r ->]. reflexivity. Qed.

#[export] Instance exact_laws : DtypeLaws exact.
Proof.
  constructor. intros [|r]; cbn; [discriminate|].
  pose proof rtol_pos as Hp.
  destruct (Rlt_dec rtol r) as [Hr|]; [intros _ | discriminate].
  split.
  - destruct (Req_dec_T r 0); [lra | reflexivity].
  - rewrite Rabs_right by lra.
    destruct (Rlt_dec r rtol); [lra | reflexivity].
Qed.

Lemma xadd_comm (x y : xreal) : xlift2 Rplus x y = xlift2 Rplus y x.
Proof. destruct x, y; simpl; try reflexivity. f_equal. ring. Qed.

Lemma xadd_assoc (x y z : xreal) :
  xlift2 Rplus x (xlift2 Rplus y z) = xlift2 Rplus (xlift2 Rplus x y) z.
Proof. destruct x, y, z; simpl; try reflexivity. f_equal. ring. Qed.

Lemma xadd_zero (x : xreal) : xlift2 Rplus (EFin 0) x = x.
Proof. destruct x; simpl; try reflexivity. f_equal. ring. Qed.

(** Over the exact numbers [np.sum] is the sum of the cells. *)
Lemma np_sum_exact (l : list xreal) :
  np_sum (D:=exact) l = fold_right (xlift2 Rplus) (EFin 0) l.
Proof.
  exact (np_sum_total (D:=exact) xadd_comm xadd_assoc xadd_zero l).
Qed.

Lemma sum_over_fin (idx : list nat) (f : nat -> xreal) (g : nat -> R) :
  (forall i, In i idx -> f i = EFin (g i)) ->
  sum_over (D:=exact) idx f = EFin (rsum idx g).
Proof.
  intros H. unfold sum_over. rewrite np_sum_exact. unfold rsum.
  induction idx as [|i idx IH]; cbn [map fold_right]; [reflexivity|].
  rewrite IH by (intros j Hj; apply H; now right).
  rewrite (H i) by now left. reflexivity.
Qed.

Lemma rsum_ext (idx : list nat) (f g : nat -> R) :
  (forall i, In i idx -> f i = g i) -> rsum idx f = rsum idx g.
Proof.
  induction idx as [|i idx IH]; intros H; simpl; [reflexivity|].
  rewrite (H i (or_introl eq_refl)), IH; [reflexivity|].
  intros j Hj. apply H. now right.
Qed.

Lemma rsum_scal_r (idx : list nat) (f : nat -> R) (c : R) :
  rsum idx (fun i => f i * c) = rsum idx f * c.
Proof. induction idx as [|i idx IH]; simpl; [lra | rewrite IH; lra]. Qed.

Lemma rsum_scal_l (idx : list nat) (f : nat -> R) (c : R) :
  rsum idx (fun i => c * f i) = c * rsum idx f.
Proof. induction idx as [|i idx IH]; simpl; [lra | rewrite IH; lra]. Qed.

Lemma rsum_zero (idx : list nat) (f : nat -> R) :
  (forall i, In i idx -> f i = 0) -> rsum idx f = 0.
Proof.
  induction idx as [|i idx IH]; intros H; simpl; [reflexivity|].
  rewrite (H i (or_introl eq_refl)), IH; [lra|].
  intros j Hj. apply H. now right.
Qed.

Lemma rsum_const (idx : list nat) (c : R) :
  rsum idx (fun _ => c) = INR (length idx) * c.
Proof.
  induction idx as [|i idx IH]; [simpl; lra|].
  cbn [rsum fold_right length]. fold (rsum idx (fun _ => c)).
  rewrite IH, S_INR. lra.
Qed.

Lemma rsum_nonneg (idx : list nat) (f : nat -> R) :
  (forall i, In i idx -> 0 <= f i) -> 0 <= rsum idx f.
Proof.
  induction idx as [|i idx IH]; intros H; simpl; [lra|].
  assert (0 <= f i) by (apply H; now left).
  assert (0 <= rsum idx f) by (apply IH; intros j Hj; apply H; now right).
  unfold rsum in *. lra.
Qed.

End ExactFacts.

(** The formula of the exact instance is the formula over the reals,
    as soon as the weights are numbers whose sum is not zero. *)
Section ExactFormula.
Local Open Scope R_scope.
Variables (p1 p2 : ndarray (@num exact)) (weights : option (ndarray (@num exact))).
Variable centered : bool.
Hypothesis Hfin : finite_weights p1 p2 weights.
Hypothesis Htot : rtotal p1 p2 weights <> 0.

Let V := valid_positions (D:=exact) p1 p2.

Lemma cell1_fin (i : nat) :
  In i V -> nth i (data p1) (@zero exact) = EFin (rcell p1 i).
Proof.
  intros H. apply (valid_position_lt (D:=exact)) in H.
  destruct H as [_ [H _]]. now apply not_nan_fin.
Qed.

Lemma cell2_fin (i : nat) :
  In i V -> nth i (data p2) (@zero exact) = EFin (rcell p2 i).
Proof.
  intros H. apply (valid_position_lt (D:=exact)) in H.
  destruct H as [_ [_ H]]. now apply not_nan_fin.
Qed.

Lemma total_fin :
  sum_over (D:=exact) V (raw_weight weights) = EFin (rtotal p1 p2 weights).
Proof.
  apply sum_over_fin. intros i Hi. apply is_fin_real_of, Hfin, Hi.
Qed.

Lemma norm_weight_fin (i : nat) :
  In i V ->
  norm_weight (D:=exact) p1 p2 weights i = EFin (rweight p1 p2 weights i).
Proof.
  intros Hi. unfold norm_weight. fold V. rewrite total_fin.
  rewrite (is_fin_real_of _ (Hfin i Hi)).
  change (@fdiv exact) with xdiv. now rewrite xdiv_fin.
Qed.

Section OnePattern.
Variable p : ndarray (@num exact).
Hypothesis Hp : forall i, In i V -> nth i (data p) (@zero exact) = EFin (rcell p i).

Lemma mean_fin :
  weighted_mean (D:=exact) p1 p2 weights p = EFin (rmean p1 p2 weights p).
Proof.
  unfold weighted_mean. apply sum_over_fin. intros i Hi.
  now rewrite (Hp i Hi), (norm_weight_fin i Hi).
Qed.

Lemma centered_fin (i : nat) :
  In i V ->
  centered_value (D:=exact) p1 p2 weights centered p i =
  EFin (rcentered p1 p2 weights centered p i).
Proof.
  intros Hi. unfold centered_value, rcentered.
  rewrite mean_fin, (Hp i Hi). now destruct centered.
Qed.

Lemma var_fin :
  weighted_var (D:=exact) p1 p2 weights centered p =
  EFin (rvar p1 p2 weights centered p).
Proof.
  unfold weighted_var. apply sum_over_fin. intros i Hi.
  now rewrite (norm_weight_fin i Hi), (centered_fin i Hi).
Qed.

End OnePattern.

Lemma cov_fin :
  weighted_cov (D:=exact) p1 p2 weights centered =
  EFin (rcov p1 p2 weights centered).
Proof.
  unfold weighted_cov. apply sum_over_fin. intros i Hi.
  now rewrite (norm_weight_fin i Hi), (centered_fin p1 cell1_fin i Hi),
    (centered_fin p2 cell2_fin i Hi).
Qed.

Lemma std1_fin :
  0 <= rvar p1 p2 weights centered p1 ->
  weighted_std (D:=exact) p1 p2 weights centered p1 =
  EFin (sqrt (rvar p1 p2 weights centered p1)).
Proof.
  intros H. unfold weighted_std. rewrite (var_fin p1 cell1_fin).
  now apply xsqrt_fin.
Qed.

Lemma std2_fin :
  0 <= rvar p1 p2 weights centered p2 ->
  weighted_std (D:=exact) p1 p2 weights centered p2 =
  EFin (sqrt (rvar p1 p2 weights centered p2)).
Proof.
  intros H. unfold weighted_std. rewrite (var_fin p2 cell2_fin).
  now apply xsqrt_fin.
Qed.

End ExactFormula.

Section ExactDegenerate.
Local Open Scope R_scope.

Lemma degenerate_zero_l (x : xreal) : degenerate (D:=exact) (EFin 0) x = true.
Proof.
  unfold degenerate.
  change (@feq exact (EFin 0) (@zero exact)) with (xeq (EFin 0) (EFin 0)).
  now rewrite (proj2 (xeq_true 0 0) eq_refl).
Qed.

Lemma degenerate_zero_r (x : xreal) : degenerate (D:=exact) x (EFin 0) = true.
Proof.
  unfold degenerate.
  change (@feq exact (EFin 0) (@zero exact)) with (xeq (EFin 0) (EFin 0)).
  rewrite (proj2 (xeq_true 0 0) eq_refl).
  now rewrite orb_true_r.
Qed.

Lemma degenerate_fin (s1 s2 : R) :
  0 <= s1 -> 0 <= s2 ->
  (degenerate (D:=exact) (EFin s1) (EFin s2) = false <->
   rtol <= s1 /\ rtol <= s2).
Proof.
  intros H1 H2. pose proof rtol_pos as Hp. unfold degenerate. cbn.
  rewrite (Rabs_right s1), (Rabs_right s2) by lra.
  destruct (Req_dec_T s1 0), (Req_dec_T s2 0), (Rlt_dec s1 rtol),
    (Rlt_dec s2 rtol); cbn; split; intros H; try discriminate;
    try reflexivity; try lra.
Qed.

End ExactDegenerate.

Section RealAlgebra.
Local Open Scope R_scope.

Lemma sq_le_le (u v : R) : 0 <= v -> u * u <= v * v -> u <= v.
Proof. intros Hv H. nra. Qed.

Lemma cross_term_bound (A B C x y : R) :
  0 <= A -> 0 <= B -> C * C <= A * B ->
  2 * (x * y * C) <= x * x * B + y * y * A.
Proof.
  intros HA HB HC. apply sq_le_le.
  - nra.
  - assert (H1 : (x * y) * (x * y) * (C * C) <= (x * y) * (x * y) * (A * B)).
    { apply Rmult_le_compat_l; [nra | exact HC]. }
    pose proof (Rle_0_sqr (x * x * B - y * y * A)) as H2.
    unfold Rsqr in H2. nra.
Qed.

(** Cauchy-Schwarz for sums with non-negative weights. *)
Lemma rsum_cauchy_schwarz (idx : list nat) (w a b : nat -> R) :
  (forall i, In i idx -> 0 <= w i) ->
  rsum idx (fun i => w i * a i * b i) * rsum idx (fun i => w i * a i * b i)
  <= rsum idx (fun i => w i * (a i * a i))
     * rsum idx (fun i => w i * (b i * b i)).
Proof.
  induction idx as [|i idx IH]; intros Hw; [simpl; lra|].
  assert (Hwi : 0 <= w i) by (apply Hw; now left).
  assert (Hw' : forall j, In j idx -> 0 <= w j)
    by (intros j Hj; apply Hw; now right).
  specialize (IH Hw').
  assert (HA : 0 <= rsum idx (fun i => w i * (a i * a i))).
  { apply rsum_nonneg. intros j Hj. specialize (Hw' j Hj). nra. }
  assert (HB : 0 <= rsum idx (fun i => w i * (b i * b i))).
  { apply rsum_nonneg. intros j Hj. specialize (Hw' j Hj). nra. }
  cbn [rsum fold_right].
  fold (rsum idx (fun i => w i * a i * b i)).
  fold (rsum idx (fun i => w i * (a i * a i))).
  fold (rsum idx (fun i => w i * (b i * b i))).
  set (C := rsum idx (fun i => w i * a i * b i)) in *.
  set (A := rsum idx (fun i => w i * (a i * a i))) in *.
  set (B := rsum idx (fun i => w i * (b i * b i))) in *.
  pose proof (cross_term_bound A B C (a i) (b i) HA HB IH) as Hx.
  assert (Hx' : w i * (2 * (a i * b i * C)) <=
                w i * (a i * a i * B + b i * b i * A))
    by (apply Rmult_le_compat_l; assumption).
  nra.
Qed.

Lemma rsum_pos (idx : list nat) (f : nat -> R) :
  (forall i, In i idx -> 0 <= f i) ->
  (exists i, In i idx /\ 0 < f i) -> 0 < rsum idx f.
Proof.
  induction idx as [|i idx IH]; intros H [j [Hj Hp]]; [destruct Hj|].
  cbn [rsum fold_right]. fold (rsum idx f).
  assert (0 <= f i) by (apply H; now left).
  assert (0 <= rsum idx f)
    by (apply rsum_nonneg; intros k Hk; apply H; now right).
  destruct Hj as [->|Hj]; [lra|].
  assert (0 < rsum idx f).
  { apply IH; [intros k Hk; apply H; now right | now exists j]. }
  lra.
Qed.

(** A quotient of a covariance by the standard deviations lies in
    [-1, 1]. *)
Lemma quotient_bound (A B C : R) :
  0 < sqrt A -> 0 < sqrt B -> 0 <= A -> 0 <= B -> C * C <= A * B ->
  -1 <= C / (sqrt A * sqrt B) <= 1.
Proof.
  intros HsA HsB HA HB HC.
  assert (Hs : 0 < sqrt A * sqrt B) by (apply Rmult_lt_0_compat; assumption).
  assert (Hsq : (sqrt A * sqrt B) * (sqrt A * sqrt B) = A * B).
  { pose proof (sqrt_sqrt A HA). pose proof (sqrt_sqrt B HB). nra. }
  assert (H1 : C <= sqrt A * sqrt B) by (apply sq_le_le; lra).
  assert (H2 : - C <= sqrt A * sqrt B) by (apply sq_le_le; nra).
  split.
  - apply Rmult_le_reg_r with (sqrt A * sqrt B); [exact Hs|].
    unfold Rdiv. rewrite Rmult_assoc, Rinv_l by lra. lra.
  - apply Rmult_le_reg_r with (sqrt A * sqrt B); [exact Hs|].
    unfold Rdiv. rewrite Rmult_assoc, Rinv_l by lra. lra.
Qed.

End RealAlgebra.

Section ExactWeights.
Local Open Scope R_scope.
Variables p1 p2 : ndarray (@num exact).

Let V := valid_positions (D:=exact) p1 p2.

Lemma finite_none : finite_weights p1 p2 None.
Proof. intros i _. now exists 1. Qed.

Lemma rtotal_none : rtotal p1 p2 None = INR (length V).
Proof.
  unfold rtotal. fold V.
  rewrite (rsum_ext V (rraw None) (fun _ => 1)) by reflexivity.
  rewrite rsum_const. lra.
Qed.

Lemma rtotal_none_pos : V <> [] -> 0 < rtotal p1 p2 None.
Proof.
  intros H. rewrite rtotal_none. apply lt_0_INR.
  destruct V; [congruence | simpl; lia].
Qed.

Lemma nonnegative_weights_facts (w : ndarray (@num exact)) :
  nonnegative_weights p1 p2 w ->
  finite_weights p1 p2 (Some w) /\
  (forall i, In i V -> 0 <= rraw (Some w) i) /\
  0 < rtotal p1 p2 (Some w).
Proof.
  intros [Hn [j [Hj [r [Er Hr]]]]]. fold V in Hn, Hj. repeat split.
  - intros i Hi. destruct (Hn i Hi) as [x [Ex _]]. now exists x.
  - intros i Hi. destruct (Hn i Hi) as [x [Ex Hx]].
    unfold rraw, raw_weight. now rewrite Ex.
  - unfold rtotal. fold V. apply rsum_pos.
    + intros i Hi. destruct (Hn i Hi) as [x [Ex Hx]].
      unfold rraw, raw_weight. now rewrite Ex.
    + exists j. split; [exact Hj|]. unfold rraw, raw_weight. now rewrite Er.
Qed.

Lemma rweight_nonneg (weights : option (ndarray (@num exact))) (i : nat) :
  0 <= rraw weights i -> 0 < rtotal p1 p2 weights ->
  0 <= rweight p1 p2 weights i.
Proof.
  intros H1 H2. unfold rweight. apply Rmult_le_pos; [exact H1|].
  left. now apply Rinv_0_lt_compat.
Qed.

Lemma rweight_sum (weights : option (ndarray (@num exact))) :
  rtotal p1 p2 weights <> 0 -> rsum V (rweight p1 p2 weights) = 1.
Proof.
  intros H. unfold rweight, Rdiv.
  rewrite (rsum_scal_r V (rraw weights) (/ rtotal p1 p2 weights)).
  fold V. change (rsum V (rraw weights)) with (rtotal p1 p2 weights).
  now apply Rinv_r.
Qed.

Lemma rvar_nonneg (weights : option (ndarray (@num exact)))
    (centered : bool) (p : ndarray (@num exact)) :
  (forall i, In i V -> 0 <= rraw weights i) -> 0 < rtotal p1 p2 weights ->
  0 <= rvar p1 p2 weights centered p.
Proof.
  intros H1 H2. unfold rvar. apply rsum_nonneg. intros i Hi.
  pose proof (rweight_nonneg weights i (H1 i Hi) H2).
  apply Rmult_le_pos; [assumption | nra].
Qed.

(** The result of the exact instance once the validations pass and the
    variances are not negative. *)
Lemma exact_correlation_value (weights : option (ndarray (@num exact)))
    (centered : bool) :
  well_formed p1 -> well_formed p2 -> shape p1 = shape p2 -> V <> [] ->
  (forall w, weights = Some w -> well_formed w /\ shape w = shape p1) ->
  finite_weights p1 p2 weights -> rtotal p1 p2 weights <> 0 ->
  0 <= rvar p1 p2 weights centered p1 ->
  0 <= rvar p1 p2 weights centered p2 ->
  calculate_pattern_correlation (D:=exact) p1 p2 weights centered =
  if degenerate (D:=exact)
       (EFin (sqrt (rvar p1 p2 weights centered p1)))
       (EFin (sqrt (rvar p1 p2 weights centered p2)))
  then Raise ZeroVariance
  else Ok (EFin (rcov p1 p2 weights centered /
                 (sqrt (rvar p1 p2 weights centered p1) *
                  sqrt (rvar p1 p2 weights centered p2)))).
Proof.
  intros W1 W2 Hs HV Hw Hfin Htot Hv1 Hv2.
  rewrite (correlation_validated p1 p2 weights centered W1 W2 Hs HV Hw).
  rewrite (std1_fin p1 p2 weights centered Hfin Htot Hv1).
  rewrite (std2_fin p1 p2 weights centered Hfin Htot Hv2).
  destruct (degenerate _ _) eqn:Ed; [reflexivity|].
  apply degenerate_fin in Ed; try apply sqrt_pos.
  pose proof rtol_pos as Hp. destruct Ed as [E1 E2].
  unfold pearson_formula.
  rewrite (std1_fin p1 p2 weights centered Hfin Htot Hv1).
  rewrite (std2_fin p1 p2 weights centered Hfin Htot Hv2).
  rewrite (cov_fin p1 p2 weights centered Hfin Htot).
  change (@fdiv exact) with xdiv. change (@fmul exact) with (xlift2 Rmult).
  cbn [xlift2]. rewrite xdiv_fin; [reflexivity|]. nra.
Qed.

End ExactWeights.

(** * Facts of the binary64 instance *)

Section Binary64Facts.

Lemma tol_spec :
  Prim2SF 0x1.b7cdfd9d7bdbbp-34%float =
  S754_finite false 7737125245533627 (-86).
Proof. vm_compute. reflexivity. Qed.

Lemma zero_spec : Prim2SF 0%float = S754_zero false.
Proof. vm_compute. reflexivity. Qed.

Lemma binary64_above_tol (s : float) :
  PrimFloat.ltb 0x1.b7cdfd9d7bdbbp-34%float s = true ->
  PrimFloat.eqb s 0%float = false /\
  PrimFloat.ltb (PrimFloat.abs s) 0x1.b7cdfd9d7bdbbp-34%float = false.
Proof.
  rewrite !FloatAxioms.ltb_spec, FloatAxioms.eqb_spec, FloatAxioms.abs_spec.
  rewrite tol_spec, zero_spec.
  destruct (Prim2SF s) as [sg | sg | | sg m e];
    cbv [SFltb SFeqb SFabs SFcompare]; try discriminate.
  - destruct sg; [discriminate | intros _; split; reflexivity].
  - destruct sg; [discriminate|].
    rewrite (Z.compare_antisym e (-86)).
    destruct (Z.compare e (-86)) eqn:Ez; cbn [CompOpp]; try discriminate.
    + rewrite !Pos.compare_cont_spec, (Pos.compare_antisym m).
      cbn [Pos.switch_Eq].
      destruct (Pos.compare m 7737125245533627); cbn [CompOpp];
        intros H; try discriminate; split; reflexivity.
    + intros _. split; reflexivity.
Qed.

#[export] Instance binary64_laws : DtypeLaws binary64.
Proof. constructor. exact binary64_above_tol. Qed.

End Binary64Facts.

(** * The validations *)

(** C6: for equal-shaped patterns the function fails with the
    empty-input error exactly when no position is valid, a position
    being valid when neither pattern holds a NaN there; so it does when
    one of the two patterns holds only NaN. *)
Theorem empty_input_iff_no_valid_position {D : Dtype}
    (p1 p2 : ndarray num) (weights : option (ndarray num))
    (centered : bool) :
  well_formed p1 -> well_formed p2 -> shape p1 = shape p2 ->
  (calculate_pattern_correlation p1 p2 weights centered = Raise NoValidData
   <-> no_valid_position p1 p2) /\
  ((forall x, In x (data p1) -> np_isnan x = true) ->
   calculate_pattern_correlation p1 p2 weights centered = Raise NoValidData)
  /\
  ((forall x, In x (data p2) -> np_isnan x = true) ->
   calculate_pattern_correlation p1 p2 weights centered = Raise NoValidData).
Proof.
  intros W1 W2 Hs.
  pose proof (same_shape_same_length p1 p2 Hs W1 W2) as Hlen.
  assert (Hempty : no_valid_position p1 p2 ->
            calculate_pattern_correlation p1 p2 weights centered =
            Raise NoValidData).
  { intros H. apply empty_second; auto. now apply valid_positions_nil. }
  split; [split; [|exact Hempty] | split].
  - intros E. apply valid_positions_nil.
    destruct (valid_positions p1 p2) as [|i idx] eqn:EV; [reflexivity|].
    exfalso. apply (not_empty_error p1 p2 weights centered W1 W2 Hs);
      [rewrite EV; discriminate | exact E].
  - intros Hnan. apply Hempty. intros i Hi. left.
    apply Hnan. now apply nth_In.
  - intros Hnan. apply Hempty. intros i Hi. right.
    apply Hnan. apply nth_In. now rewrite <- Hlen.
Qed.

Lemma empty_input_iff_no_valid_position_witness :
  calculate_pattern_correlation (D:=binary64)
    (arr1 [PrimFloat.nan; PrimFloat.nan]) (arr1 [1%float; 2%float])
    None true = Raise NoValidData.
Proof.
  apply (proj1 (proj2 (empty_input_iff_no_valid_position (D:=binary64)
           (arr1 [PrimFloat.nan; PrimFloat.nan]) (arr1 [1%float; 2%float])
           None true eq_refl eq_refl eq_refl))).
  intros x [<-|[<-|[]]]; reflexivity.
Defined.

(** C10: the validations run in a fixed order: the shapes of the two
    patterns, then the presence of a valid position, then the shape of
    the weights; the first that fails gives the error.  Patterns
    without a valid position raise the empty-input error whatever the
    weights are, a wrongly shaped weight array included. *)
Theorem validation_order {D : Dtype}
    (p1 p2 : ndarray num) (weights : option (ndarray num))
    (centered : bool) :
  well_formed p1 -> well_formed p2 ->
  (shape p1 <> shape p2 ->
   calculate_pattern_correlation p1 p2 weights centered =
   Raise PatternShapeMismatch) /\
  (shape p1 = shape p2 -> no_valid_position p1 p2 ->
   calculate_pattern_correlation p1 p2 weights centered =
   Raise NoValidData) /\
  (shape p1 = shape p2 -> has_valid_position p1 p2 ->
   forall w, weights = Some w -> shape w <> shape p1 ->
   calculate_pattern_correlation p1 p2 weights centered =
   Raise WeightShapeMismatch).
Proof.
  intros W1 W2. repeat split.
  - apply mismatch_first.
  - intros Hs HV. apply empty_second; auto. now apply valid_positions_nil.
  - intros Hs HV w -> Hw. apply weights_third; auto.
    now apply has_valid_positions.
Qed.

Lemma validation_order_witness :
  calculate_pattern_correlation (D:=binary64)
    (arr1 [PrimFloat.nan]) (arr1 [PrimFloat.nan])
    (Some (arr1 [1%float; 1%float])) true = Raise NoValidData.
Proof.
  apply (proj1 (proj2 (validation_order (D:=binary64)
           (arr1 [PrimFloat.nan]) (arr1 [PrimFloat.nan])
           (Some (arr1 [1%float; 1%float])) true eq_refl eq_refl)));
    [reflexivity|].
  intros i Hi. left. destruct i; [reflexivity | simpl in Hi; lia].
Defined.

(** C5, as the code has it: patterns of different shapes raise the
    shape-mismatch error; a weight array whose shape differs from the
    shape of the patterns raises it when the patterns have equal shapes
    and a valid position. *)
Theorem shape_mismatch_errors {D : Dtype}
    (p1 p2 w : ndarray num) (weights : option (ndarray num))
    (centered : bool) :
  (shape p1 <> shape p2 ->
   calculate_pattern_correlation p1 p2 weights centered =
   Raise PatternShapeMismatch) /\
  (well_formed p1 -> well_formed p2 -> shape p1 = shape p2 ->
   has_valid_position p1 p2 -> shape w <> shape p1 ->
   calculate_pattern_correlation p1 p2 (Some w) centered =
   Raise WeightShapeMismatch).
Proof.
  split.
  - apply mismatch_first.
  - intros W1 W2 Hs HV Hw. apply weights_third; auto.
    now apply has_valid_positions.
Qed.

Lemma shape_mismatch_errors_witness :
  calculate_pattern_correlation (D:=binary64)
    (arr1 [1%float; 2%float]) (arr1 [1%float; 2%float; 3%float])
    None true = Raise PatternShapeMismatch /\
  calculate_pattern_correlation (D:=binary64)
    (arr1 [1%float; 2%float]) (arr1 [2%float; 1%float])
    (Some (arr1 [1%float; 1%float; 1%float])) true =
  Raise WeightShapeMismatch.
Proof.
  split.
  - apply (proj1 (shape_mismatch_errors (D:=binary64)
             (arr1 [1%float; 2%float]) (arr1 [1%float; 2%float; 3%float])
             (arr1 []) None true)).
    discriminate.
  - apply (proj2 (shape_mismatch_errors (D:=binary64)
             (arr1 [1%float; 2%float]) (arr1 [2%float; 1%float])
             (arr1 [1%float; 1%float; 1%float]) None true));
      try reflexivity; try discriminate.
    exists 0. repeat split. simpl. lia.
Defined.

(** C5 as stated fails: with patterns that hold only NaN, a weight
    array of another shape raises the empty-input error. *)
Lemma weight_shape_checked_after_empty_input :
  shape (arr1 [1%float; 1%float]) <> shape (arr1 [PrimFloat.nan]) /\
  calculate_pattern_correlation (D:=binary64)
    (arr1 [PrimFloat.nan]) (arr1 [PrimFloat.nan])
    (Some (arr1 [1%float; 1%float])) true = Raise NoValidData /\
  calculate_pattern_correlation (D:=exact)
    (arr1 [ENaN]) (arr1 [ENaN])
    (Some (arr1 [EFin 1; EFin 1])) true = Raise NoValidData.
Proof. repeat split. discriminate. Qed.

(** * The value returned *)

(** Standard deviations above the tolerance leave a total weight that
    is not zero and variances that are positive, and the function
    returns the quotient of the real sums. *)
Lemma exact_correlation_above_tol
    (p1 p2 : ndarray (@num exact)) (weights : option (ndarray (@num exact)))
    (centered : bool) :
  well_formed p1 -> well_formed p2 -> shape p1 = shape p2 ->
  valid_positions (D:=exact) p1 p2 <> [] ->
  (forall a, weights = Some a -> well_formed a /\ shape a = shape p1) ->
  finite_weights p1 p2 weights ->
  (rtol < sqrt (rvar p1 p2 weights centered p1))%R ->
  (rtol < sqrt (rvar p1 p2 weights centered p2))%R ->
  calculate_pattern_correlation (D:=exact) p1 p2 weights centered =
  Ok (EFin (rcov p1 p2 weights centered /
            (sqrt (rvar p1 p2 weights centered p1) *
             sqrt (rvar p1 p2 weights centered p2)))).
Proof.
  intros W1 W2 Hs HV Hw Hfin H1 H2. pose proof rtol_pos as Hp.
  assert (Hv1 : (0 <= rvar p1 p2 weights centered p1)%R).
  { destruct (Rle_dec 0 (rvar p1 p2 weights centered p1)) as [H|H];
      [exact H|].
    rewrite sqrt_neg_0 in H1 by lra. lra. }
  assert (Hv2 : (0 <= rvar p1 p2 weights centered p2)%R).
  { destruct (Rle_dec 0 (rvar p1 p2 weights centered p2)) as [H|H];
      [exact H|].
    rewrite sqrt_neg_0 in H2 by lra. lra. }
  assert (Htot : rtotal p1 p2 weights <> 0%R).
  { intros E.
    assert (Ev : rvar p1 p2 weights centered p1 = 0%R).
    { unfold rvar. apply rsum_zero. intros i _.
      unfold rweight, Rdiv. rewrite E, Rinv_0. ring. }
    rewrite Ev, sqrt_0 in H1. lra. }
  rewrite (exact_correlation_value p1 p2 weights centered W1 W2 Hs HV Hw
             Hfin Htot Hv1 Hv2).
  destruct (degenerate _ _) eqn:Ed; [|reflexivity].
  assert (Ed' : degenerate (D:=exact)
                  (EFin (sqrt (rvar p1 p2 weights centered p1)))
                  (EFin (sqrt (rvar p1 p2 weights centered p2))) = false)
    by (apply degenerate_fin; try apply sqrt_pos; lra).
  congruence.
Qed.

(** For every element type in which a value above the tolerance passes
    the test of line 131: the value returned is the quotient that the
    operations of the code give from the terms at the valid positions,
    each sum being [np.sum] of these terms. *)
Lemma correlation_value_by_positions {D : Dtype} {L : DtypeLaws D}
    (p1 p2 : ndarray num) (weights : option (ndarray num))
    (centered : bool) :
  well_formed p1 -> well_formed p2 -> shape p1 = shape p2 ->
  has_valid_position p1 p2 ->
  (forall w, weights = Some w -> well_formed w /\ shape w = shape p1) ->
  flt tol (weighted_std p1 p2 weights centered p1) = true ->
  flt tol (weighted_std p1 p2 weights centered p2) = true ->
  calculate_pattern_correlation p1 p2 weights centered =
  Ok (pearson_formula p1 p2 weights centered).
Proof.
  intros W1 W2 Hs HV Hw H1 H2.
  apply has_valid_positions in HV.
  rewrite (correlation_validated p1 p2 weights centered W1 W2 Hs HV Hw).
  destruct (above_tol _ H1) as [E1 A1]. destruct (above_tol _ H2) as [E2 A2].
  unfold degenerate. rewrite E1, E2, A1, A2. reflexivity.
Qed.

(** C1, over the reals: for well-formed patterns of equal shapes with
    a position valid in both and weights that are absent, or of the
    shape of the patterns and numbers at the valid positions, if both
    weighted standard deviations are above the tolerance then the
    exact instance returns
    sum(w_i c1_i c2_i) / (sqrt(sum(w_i c1_i^2)) sqrt(sum(w_i c2_i^2))),
    the sums being sums of real numbers over the valid positions, [w]
    the weights divided by their sum over these positions, and [c] the
    cells minus their weighted mean when [centered] is set and the
    cells otherwise.  The sums of the right-hand side are [rsum], which
    does not depend on the order in which [np.sum] adds. *)
Theorem pattern_correlation_formula
    (p1 p2 : ndarray (@num exact)) (weights : option (ndarray (@num exact)))
    (centered : bool) :
  well_formed p1 -> well_formed p2 -> shape p1 = shape p2 ->
  has_valid_position (D:=exact) p1 p2 ->
  (forall a, weights = Some a ->
     well_formed a /\ shape a = shape p1 /\ finite_weights p1 p2 weights) ->
  let V := valid_positions (D:=exact) p1 p2 in
  let w := fun i => (rraw weights i / rsum V (rraw weights))%R in
  let c := fun p i =>
    if centered
    then (rcell p i - rsum V (fun j => rcell p j * w j))%R
    else rcell p i in
  let std := fun p => sqrt (rsum V (fun i => w i * (c p i * c p i))%R) in
  (rtol < std p1)%R -> (rtol < std p2)%R ->
  calculate_pattern_correlation (D:=exact) p1 p2 weights centered =
  Ok (EFin (rsum V (fun i => w i * c p1 i * c p2 i)%R / (std p1 * std p2))).
Proof.
  intros W1 W2 Hs HV Hw V w c std H1 H2.
  apply has_valid_positions in HV.
  assert (Hfin : finite_weights p1 p2 weights).
  { destruct weights as [a|]; [|apply finite_none].
    destruct (Hw a eq_refl) as [_ [_ H]]. exact H. }
  apply (exact_correlation_above_tol p1 p2 weights centered W1 W2 Hs HV);
    [|exact Hfin|exact H1|exact H2].
  intros a E. destruct (Hw a E) as [Wa [Hsa _]]. now split.
Qed.

Lemma pattern_correlation_formula_witness :
  calculate_pattern_correlation (D:=exact)
    (arr1 [EFin 0; ENaN; EFin 5]) (arr1 [EFin 10; EFin 0; EFin 5])
    (Some (arr1 [EFin 1; EFin 9; EFin 4])) true =
  Ok (EFin (-1)).
Proof.
  set (P1 := arr1 [EFin 0; ENaN; EFin 5]).
  set (P2 := arr1 [EFin 10; EFin 0; EFin 5]).
  set (W := Some (arr1 [EFin 1; EFin 9; EFin 4])).
  assert (E1 : rvar P1 P2 W true P1 = (2 * 2)%R)
    by (unfold P1, P2, W; unfold_reals; field).
  assert (E2 : rvar P1 P2 W true P2 = (2 * 2)%R)
    by (unfold P1, P2, W; unfold_reals; field).
  assert (Ec : rcov P1 P2 W true = (-4)%R)
    by (unfold P1, P2, W; unfold_reals; field).
  pose proof (pattern_correlation_formula P1 P2 W true
                eq_refl eq_refl eq_refl) as H.
  change (has_valid_position (D:=exact) P1 P2 ->
          (forall a, W = Some a ->
             well_formed a /\ shape a = shape P1 /\
             finite_weights P1 P2 W) ->
          (rtol < sqrt (rvar P1 P2 W true P1))%R ->
          (rtol < sqrt (rvar P1 P2 W true P2))%R ->
          calculate_pattern_correlation (D:=exact) P1 P2 W true =
          Ok (EFin (rcov P1 P2 W true /
                    (sqrt (rvar P1 P2 W true P1) *
                     sqrt (rvar P1 P2 W true P2))))) in H.
  rewrite E1, E2, Ec, !sqrt_square in H by lra.
  rewrite H.
  - f_equal. f_equal. field.
  - exists 0%nat. repeat split. simpl. lia.
  - intros a E. injection E as <-. repeat split. finite_cells.
  - unfold rtol. lra.
  - unfold rtol. lra.
Defined.

(** C1 as stated fails under binary64, where the value returned is the
    rounded evaluation of the expression and not its value: for the
    patterns [2, 3, 7] and [4, 6, 14] the expression is 1, as the exact
    instance returns, and the double returned is the next one above
    1. *)
Lemma binary64_result_is_rounded :
  calculate_pattern_correlation (D:=binary64)
    (arr1 [2%float; 3%float; 7%float])
    (arr1 [4%float; 6%float; 14%float]) None true =
  Ok 0x1.0000000000001p+0%float /\
  PrimFloat.eqb 0x1.0000000000001p+0%float 1%float = false /\
  calculate_pattern_correlation (D:=exact)
    (arr1 [EFin 2; EFin 3; EFin 7])
    (arr1 [EFin 4; EFin 6; EFin 14]) None true =
  Ok (EFin 1).
Proof.
  split; [vm_compute; reflexivity|]. split; [vm_compute; reflexivity|].
  set (P1 := arr1 [EFin 2; EFin 3; EFin 7]).
  set (P2 := arr1 [EFin 4; EFin 6; EFin 14]).
  assert (E1 : rvar P1 P2 None true P1 = (14 / 3)%R)
    by (unfold P1, P2; unfold_reals; field).
  assert (E2 : rvar P1 P2 None true P2 = (56 / 3)%R)
    by (unfold P1, P2; unfold_reals; field).
  assert (Ec : rcov P1 P2 None true = (28 / 3)%R)
    by (unfold P1, P2; unfold_reals; field).
  assert (Es : (sqrt (14 / 3) * sqrt (56 / 3) = 28 / 3)%R).
  { rewrite <- sqrt_mult by lra.
    replace (14 / 3 * (56 / 3))%R with (28 / 3 * (28 / 3))%R by field.
    apply sqrt_square. lra. }
  rewrite (exact_correlation_above_tol P1 P2 None true
             eq_refl eq_refl eq_refl).
  - rewrite E1, E2, Ec, Es. f_equal. f_equal. field.
  - unfold_reals. discriminate.
  - discriminate.
  - apply finite_none.
  - rewrite E1. apply Rlt_le_trans with (sqrt 1).
    + rewrite sqrt_1. unfold rtol. lra.
    + apply sqrt_le_1_alt. lra.
  - rewrite E2. apply Rlt_le_trans with (sqrt 1).
    + rewrite sqrt_1. unfold rtol. lra.
    + apply sqrt_le_1_alt. lra.
Qed.

(** * The wrapper *)

(** C9: with area weighting requested and the latitude dimension absent
    from the dimensions of the first field, the wrapper raises the
    missing-dimension error; with area weighting disabled it is the
    core correlation without weights (and centered). *)
Theorem spatial_correlation_missing_dimension {D : Dtype}
    (np_cos np_deg2rad : num -> num) (data1 data2 : DataArray num)
    (lat_dim lon_dim : string) :
  (~ In lat_dim (dims data1) ->
   calculate_spatial_correlation np_cos np_deg2rad data1 data2
     lat_dim lon_dim true = Raise LatDimNotFound) /\
  calculate_spatial_correlation np_cos np_deg2rad data1 data2
    lat_dim lon_dim false =
  calculate_pattern_correlation (values data1) (values data2) None true.
Proof.
  split; [|reflexivity].
  intros H. unfold calculate_spatial_correlation.
  destruct (existsb (String.eqb lat_dim) (dims data1)) eqn:E.
  - apply existsb_eqb_In in E. contradiction.
  - reflexivity.
Qed.

Lemma spatial_correlation_missing_dimension_witness :
  calculate_spatial_correlation (D:=binary64) (fun x => x) (fun x => x)
    (mk_DataArray ["x"; "y"]%string
       (mk_ndarray [1; 2] [1%float; 2%float]) [])
    (mk_DataArray ["x"; "y"]%string
       (mk_ndarray [1; 2] [2%float; 1%float]) [])
    "lat"%string "lon"%string true = Raise LatDimNotFound.
Proof.
  apply (proj1 (spatial_correlation_missing_dimension (D:=binary64)
                  (fun x => x) (fun x => x) _ _ "lat"%string "lon"%string)).
  intros [H|[H|[]]]; discriminate.
Defined.

(** * The exact instance: range, self-correlation, degenerate inputs *)

Section ExactResults.
Local Open Scope R_scope.
Variables p1 p2 : ndarray (@num exact).
Variable weights : option (ndarray (@num exact)).
Variable centered : bool.
Hypothesis W1 : well_formed p1.
Hypothesis W2 : well_formed p2.
Hypothesis Hs : shape p1 = shape p2.
Hypothesis HV : valid_positions (D:=exact) p1 p2 <> [].
Hypothesis Hw :
  forall w, weights = Some w -> well_formed w /\ shape w = shape p1.
Hypothesis Hfin : finite_weights p1 p2 weights.
Hypothesis Htot : rtotal p1 p2 weights <> 0.

(** Evaluation when the variances are known squares. *)
Lemma exact_correlation_squares (a b c : R) :
  rtol <= a -> rtol <= b ->
  rvar p1 p2 weights centered p1 = a * a ->
  rvar p1 p2 weights centered p2 = b * b ->
  rcov p1 p2 weights centered = c ->
  calculate_pattern_correlation (D:=exact) p1 p2 weights centered =
  Ok (EFin (c / (a * b))).
Proof.
  intros Ha Hb E1 E2 Ec. pose proof rtol_pos as Hp.
  assert (Hv1 : 0 <= rvar p1 p2 weights centered p1)
    by (rewrite E1; apply Rle_0_sqr).
  assert (Hv2 : 0 <= rvar p1 p2 weights centered p2)
    by (rewrite E2; apply Rle_0_sqr).
  rewrite (exact_correlation_value p1 p2 weights centered W1 W2 Hs HV Hw
             Hfin Htot Hv1 Hv2).
  rewrite E1, E2, Ec, !sqrt_square by lra.
  destruct (degenerate _ _) eqn:Ed; [|reflexivity].
  assert (Ed' : degenerate (D:=exact) (EFin a) (EFin b) = false)
    by (apply degenerate_fin; lra).
  congruence.
Qed.

(** A pattern without weighted variance raises the zero-variance
    error. *)
Lemma exact_zero_variance :
  rvar p1 p2 weights centered p1 = 0 \/ rvar p1 p2 weights centered p2 = 0 ->
  calculate_pattern_correlation (D:=exact) p1 p2 weights centered =
  Raise ZeroVariance.
Proof.
  intros H.
  rewrite (correlation_validated p1 p2 weights centered W1 W2 Hs HV Hw).
  unfold weighted_std at 1 2.
  rewrite (var_fin p1 p2 weights centered Hfin Htot p1
             (cell1_fin p1 p2)).
  rewrite (var_fin p1 p2 weights centered Hfin Htot p2
             (cell2_fin p1 p2)).
  change (@np_sqrt exact) with xsqrt.
  destruct H as [E|E]; rewrite E, (xsqrt_fin 0), sqrt_0 by lra.
  - now rewrite degenerate_zero_l.
  - now rewrite degenerate_zero_r.
Qed.

End ExactResults.

(** C2, as the code has it: without weights, or with weights that are
    non-negative numbers of which one is positive on the valid
    positions, a value returned by the exact instance lies in
    [-1, 1]. *)
Theorem correlation_in_unit_interval
    (p1 p2 : ndarray (@num exact)) (weights : option (ndarray (@num exact)))
    (centered : bool) (v : xreal) :
  well_formed p1 -> well_formed p2 ->
  (forall w, weights = Some w ->
     well_formed w /\ nonnegative_weights p1 p2 w) ->
  calculate_pattern_correlation (D:=exact) p1 p2 weights centered = Ok v ->
  exists r, v = EFin r /\ (-1 <= r <= 1)%R.
Proof.
  intros W1 W2 Hw E.
  destruct (list_eq_dec Nat.eq_dec (shape p1) (shape p2)) as [Hs|Hs].
  2:{ rewrite (mismatch_first p1 p2 weights centered Hs) in E.
      discriminate. }
  destruct (valid_positions (D:=exact) p1 p2) as [|i0 idx] eqn:EV.
  { rewrite (empty_second p1 p2 weights centered W1 W2 Hs EV) in E.
    discriminate. }
  assert (HV : valid_positions (D:=exact) p1 p2 <> [])
    by (rewrite EV; discriminate).
  clear EV i0 idx.
  assert (Hshape : forall w, weights = Some w ->
                     well_formed w /\ shape w = shape p1).
  { intros w ->. destruct (Hw w eq_refl) as [Ww _]. split; [exact Ww|].
    destruct (list_eq_dec Nat.eq_dec (shape w) (shape p1)) as [Hsw|Hsw];
      [exact Hsw|].
    rewrite (weights_third p1 p2 w centered W1 W2 Hs HV Hsw) in E.
    discriminate. }
  assert (Hfacts : finite_weights p1 p2 weights /\
            (forall i, In i (valid_positions (D:=exact) p1 p2) ->
               (0 <= rraw weights i)%R) /\
            (0 < rtotal p1 p2 weights)%R).
  { destruct weights as [w|].
    - apply nonnegative_weights_facts. now destruct (Hw w eq_refl).
    - repeat split.
      + apply finite_none.
      + intros i _. cbn. lra.
      + now apply rtotal_none_pos. }
  destruct Hfacts as [Hfin [Hnn Hpos]].
  pose proof (rvar_nonneg p1 p2 weights centered p1 Hnn Hpos) as Hv1.
  pose proof (rvar_nonneg p1 p2 weights centered p2 Hnn Hpos) as Hv2.
  rewrite (exact_correlation_value p1 p2 weights centered W1 W2 Hs HV
             Hshape Hfin) in E; try assumption; [|lra].
  destruct (degenerate _ _) eqn:Ed; [discriminate|].
  injection E as <-. eexists. split; [reflexivity|].
  apply degenerate_fin in Ed; try apply sqrt_pos.
  pose proof rtol_pos as Hp. destruct Ed as [E1 E2].
  apply quotient_bound; try lra.
  unfold rcov, rvar. apply rsum_cauchy_schwarz.
  intros i Hi. apply rweight_nonneg; [now apply Hnn | exact Hpos].
Qed.

Lemma correlation_in_unit_interval_witness :
  exists r, EFin (1 / (1 * 1)) = EFin r /\ (-1 <= r <= 1)%R.
Proof.
  apply (correlation_in_unit_interval
           (arr1 [EFin 1; EFin (-1)]) (arr1 [EFin 1; EFin (-1)])
           (Some (arr1 [EFin 1; EFin 1])) false (EFin (1 / (1 * 1))));
    try reflexivity.
  - intros w E. injection E as <-. split; [reflexivity|]. split.
    + intros i Hi. unfold_reals_in Hi.
      destruct Hi as [<-|[<-|[]]]; exists 1%R; split;
        try reflexivity; lra.
    + exists 0%nat. split; [unfold_reals; now left|].
      exists 1%R. split; [reflexivity | lra].
  - apply exact_correlation_squares; try reflexivity.
    + unfold_reals. discriminate.
    + intros w E. injection E as <-. split; reflexivity.
    + finite_cells.
    + unfold_reals. lra.
    + unfold rtol. lra.
    + unfold rtol. lra.
    + unfold_reals. lra.
    + unfold_reals. lra.
    + unfold_reals. lra.
Defined.

(** C2 as stated fails: with the weights 4 and -3 the function returns
    2, under both instances. *)
Lemma negative_weights_leave_unit_interval :
  calculate_pattern_correlation (D:=binary64)
    (arr1 [1%float; 0%float]) (arr1 [1%float; 1%float])
    (Some (arr1 [4%float; (-3)%float])) false = Ok 2%float /\
  calculate_pattern_correlation (D:=exact)
    (arr1 [EFin 1; EFin 0]) (arr1 [EFin 1; EFin 1])
    (Some (arr1 [EFin 4; EFin (-3)])) false = Ok (EFin 2) /\
  ~ (-1 <= 2 <= 1)%R.
Proof.
  split; [vm_compute; reflexivity | split; [|lra]].
  replace (EFin 2) with (EFin (4 / (2 * 1))) by (f_equal; lra).
  apply exact_correlation_squares; try reflexivity.
  - unfold_reals. discriminate.
  - intros w E. injection E as <-. split; reflexivity.
  - finite_cells.
  - unfold_reals. lra.
  - unfold rtol. lra.
  - unfold rtol. lra.
  - unfold_reals. lra.
  - unfold_reals. lra.
  - unfold_reals. lra.
Qed.

Section SelfCorrelation.
Local Open Scope R_scope.
Variable P : ndarray (@num exact).

Lemma self_cov_var (weights : option (ndarray (@num exact)))
    (centered : bool) :
  rcov P P weights centered = rvar P P weights centered P.
Proof.
  unfold rcov, rvar. apply rsum_ext. intros i _. ring.
Qed.

Lemma self_correlation_value :
  well_formed P -> valid_positions (D:=exact) P P <> [] ->
  calculate_pattern_correlation (D:=exact) P P None true =
  if degenerate (D:=exact)
       (EFin (sqrt (rvar P P None true P)))
       (EFin (sqrt (rvar P P None true P)))
  then Raise ZeroVariance else Ok (EFin 1).
Proof.
  intros W HV.
  assert (Hpos : 0 < rtotal P P None) by now apply rtotal_none_pos.
  assert (Hv : 0 <= rvar P P None true P).
  { apply rvar_nonneg; [|exact Hpos]. intros i _. cbn. lra. }
  rewrite (exact_correlation_value P P None true W W eq_refl HV);
    try assumption; try apply finite_none; try lra; try discriminate.
  destruct (degenerate _ _) eqn:Ed; [reflexivity|].
  apply degenerate_fin in Ed; try apply sqrt_pos.
  pose proof rtol_pos as Hp. destruct Ed as [E1 _].
  rewrite self_cov_var, sqrt_sqrt by exact Hv.
  do 2 f_equal. apply Rdiv_diag.
  intros E0. rewrite E0, sqrt_0 in E1. lra.
Qed.

End SelfCorrelation.

(** C3, as the code has it: with the default arguments the exact
    instance never returns anything but 1 on the pair (P, P); it
    returns 1 when P has a valid position and a weighted standard
    deviation of at least the tolerance, raises the zero-variance error
    when the standard deviation is below the tolerance, and the
    empty-input error when P has no valid position. *)
Theorem self_correlation_is_one (P : ndarray (@num exact)) :
  well_formed P ->
  (forall v, calculate_pattern_correlation (D:=exact) P P None true = Ok v ->
             v = EFin 1) /\
  (has_valid_position (D:=exact) P P ->
   forall s, weighted_std (D:=exact) P P None true P = EFin s ->
             (rtol <= s)%R ->
   calculate_pattern_correlation (D:=exact) P P None true = Ok (EFin 1)) /\
  (has_valid_position (D:=exact) P P ->
   forall s, weighted_std (D:=exact) P P None true P = EFin s ->
             (s < rtol)%R ->
   calculate_pattern_correlation (D:=exact) P P None true =
   Raise ZeroVariance) /\
  (no_valid_position (D:=exact) P P ->
   calculate_pattern_correlation (D:=exact) P P None true =
   Raise NoValidData).
Proof.
  intros W. split; [|split; [|split]].
  - intros v E.
    destruct (valid_positions (D:=exact) P P) as [|i0 idx] eqn:EV.
    { rewrite (empty_second P P None true W W eq_refl EV) in E.
      discriminate. }
    rewrite self_correlation_value in E;
      [| exact W | rewrite EV; discriminate].
    destruct (degenerate _ _); [discriminate | congruence].
  - intros HV s Es Hs. apply has_valid_positions in HV.
    assert (Hpos : (0 < rtotal P P None)%R) by now apply rtotal_none_pos.
    assert (Hv : (0 <= rvar P P None true P)%R).
    { apply rvar_nonneg; [|exact Hpos]. intros i _. cbn. lra. }
    rewrite (std1_fin P P None true (finite_none P P)) in Es;
      [| lra | exact Hv].
    injection Es as Es.
    subst s. rewrite (self_correlation_value P W HV).
    destruct (degenerate _ _) eqn:Ed; [|reflexivity].
    assert (Ed' : degenerate (D:=exact)
                    (EFin (sqrt (rvar P P None true P)))
                    (EFin (sqrt (rvar P P None true P))) = false).
    { apply degenerate_fin;
        [apply sqrt_pos | apply sqrt_pos | split; exact Hs]. }
    congruence.
  - intros HV s Es Hs. apply has_valid_positions in HV.
    assert (Hpos : (0 < rtotal P P None)%R) by now apply rtotal_none_pos.
    assert (Hv : (0 <= rvar P P None true P)%R).
    { apply rvar_nonneg; [|exact Hpos]. intros i _. cbn. lra. }
    rewrite (std1_fin P P None true (finite_none P P)) in Es;
      [| lra | exact Hv].
    injection Es as Es.
    subst s. rewrite (self_correlation_value P W HV).
    destruct (degenerate _ _) eqn:Ed; [reflexivity|].
    apply degenerate_fin in Ed; try apply sqrt_pos.
    destruct Ed as [Ed _]. exfalso.
    exact (Rlt_irrefl _ (Rlt_le_trans _ _ _ Hs Ed)).
  - intros HN. apply empty_second; auto. now apply valid_positions_nil.
Qed.

Lemma self_correlation_is_one_witness :
  calculate_pattern_correlation (D:=exact)
    (arr1 [EFin 1; EFin (-1)]) (arr1 [EFin 1; EFin (-1)]) None true =
  Ok (EFin 1).
Proof.
  assert (E : rvar (arr1 [EFin 1; EFin (-1)]) (arr1 [EFin 1; EFin (-1)])
                None true (arr1 [EFin 1; EFin (-1)]) = 1%R)
    by (unfold_reals; field).
  apply (proj1 (proj2 (self_correlation_is_one
                         (arr1 [EFin 1; EFin (-1)]) eq_refl)))
    with (s := 1%R).
  - exists 0%nat. repeat split. simpl. lia.
  - rewrite (std1_fin _ _ None true (finite_none _ _)); rewrite ?E.
    + now rewrite sqrt_1.
    + unfold_reals. lra.
    + lra.
  - unfold rtol. lra.
Defined.

(** C3 as stated fails: a constant pattern correlated with itself
    raises the zero-variance error, under both instances. *)
Lemma constant_self_correlation_fails :
  calculate_pattern_correlation (D:=binary64)
    (arr1 [1%float; 1%float]) (arr1 [1%float; 1%float]) None true =
  Raise ZeroVariance /\
  calculate_pattern_correlation (D:=exact)
    (arr1 [EFin 1; EFin 1]) (arr1 [EFin 1; EFin 1]) None true =
  Raise ZeroVariance.
Proof.
  split; [vm_compute; reflexivity|].
  apply exact_zero_variance; try reflexivity.
  - unfold_reals. discriminate.
  - discriminate.
  - finite_cells.
  - unfold_reals. lra.
  - left. unfold_reals. field.
Qed.

Section ConstantPattern.
Local Open Scope R_scope.
Variables p1 p2 : ndarray (@num exact).
Variable weights : option (ndarray (@num exact)).

Lemma constant_rvar_zero (p : ndarray (@num exact)) (c : R) :
  rtotal p1 p2 weights <> 0 ->
  (forall i, In i (valid_positions (D:=exact) p1 p2) -> rcell p i = c) ->
  rvar p1 p2 weights true p = 0.
Proof.
  intros Htot Hc.
  assert (Hm : rmean p1 p2 weights p = c).
  { unfold rmean.
    rewrite (rsum_ext _ _ (fun i => c * rweight p1 p2 weights i))
      by (intros i Hi; now rewrite (Hc i Hi)).
    rewrite rsum_scal_l, rweight_sum by exact Htot. lra. }
  unfold rvar. apply rsum_zero. intros i Hi.
  unfold rcentered. rewrite Hm, (Hc i Hi). ring.
Qed.

Lemma constant_cells (p : ndarray (@num exact)) (c : R) :
  length (data p) = length (data p1) -> constant_array p c ->
  forall i, In i (valid_positions (D:=exact) p1 p2) -> rcell p i = c.
Proof.
  intros Hlen Hc i Hi. apply (valid_position_lt (D:=exact)) in Hi.
  destruct Hi as [Hi _]. unfold rcell.
  rewrite (Hc (nth i (data p) (@zero exact))); [reflexivity|].
  apply nth_In. now rewrite Hlen.
Qed.

End ConstantPattern.

(** C4, as the code has it, for the exact instance and centered
    patterns: a constant pattern paired with a pattern of its shape
    raises the zero-variance error when the pair has a valid position
    and the weights, if supplied, have the shape of the patterns and
    are numbers with a sum other than zero on the valid positions; so
    does a pair of one-cell patterns holding numbers. *)
Theorem zero_variance_errors :
  (forall (p1 p2 : ndarray (@num exact))
          (weights : option (ndarray (@num exact))) (c : R),
     well_formed p1 -> well_formed p2 -> shape p1 = shape p2 ->
     has_valid_position (D:=exact) p1 p2 ->
     (forall w, weights = Some w ->
        well_formed w /\ shape w = shape p1 /\
        finite_weights p1 p2 weights /\ rtotal p1 p2 weights <> 0%R) ->
     constant_array p1 c \/ constant_array p2 c ->
     calculate_pattern_correlation (D:=exact) p1 p2 weights true =
     Raise ZeroVariance) /\
  (forall (s : list nat) (a b : R),
     size_of s = 1 ->
     calculate_pattern_correlation (D:=exact)
       (mk_ndarray s [EFin a]) (mk_ndarray s [EFin b]) None true =
     Raise ZeroVariance).
Proof.
  assert (General : forall (p1 p2 : ndarray (@num exact))
          (weights : option (ndarray (@num exact))) (c : R),
     well_formed p1 -> well_formed p2 -> shape p1 = shape p2 ->
     has_valid_position (D:=exact) p1 p2 ->
     (forall w, weights = Some w ->
        well_formed w /\ shape w = shape p1 /\
        finite_weights p1 p2 weights /\ rtotal p1 p2 weights <> 0%R) ->
     constant_array p1 c \/ constant_array p2 c ->
     calculate_pattern_correlation (D:=exact) p1 p2 weights true =
     Raise ZeroVariance).
  { intros p1 p2 weights c W1 W2 Hs HV Hw Hc.
    apply has_valid_positions in HV.
    pose proof (same_shape_same_length p1 p2 Hs W1 W2) as Hlen.
    assert (Hfacts : finite_weights p1 p2 weights /\
                     rtotal p1 p2 weights <> 0%R).
    { destruct weights as [w|].
      - destruct (Hw w eq_refl) as [_ [_ H]]. exact H.
      - split; [apply finite_none|].
        pose proof (rtotal_none_pos p1 p2 HV). lra. }
    destruct Hfacts as [Hfin Htot].
    apply exact_zero_variance; try assumption.
    - intros w E. destruct (Hw w E) as [Ww [Hsw _]]. now split.
    - destruct Hc as [Hc|Hc]; [left | right];
        apply constant_rvar_zero with (c := c); try exact Htot;
        apply constant_cells; auto. }
  split; [exact General|].
  intros s a b Hsz.
  apply (General (mk_ndarray s [EFin a]) (mk_ndarray s [EFin b]) None a).
  - unfold well_formed. simpl. now rewrite Hsz.
  - unfold well_formed. simpl. now rewrite Hsz.
  - reflexivity.
  - exists 0. repeat split. simpl. lia.
  - discriminate.
  - left. intros x [<-|[]]. reflexivity.
Qed.

Lemma zero_variance_errors_witness :
  calculate_pattern_correlation (D:=exact)
    (arr1 [EFin 1; EFin 1; EFin 1]) (arr1 [EFin 1; EFin 2; EFin 4])
    (Some (arr1 [EFin 3; EFin (-1); EFin 2])) true = Raise ZeroVariance /\
  calculate_pattern_correlation (D:=exact)
    (mk_ndarray [1; 1] [EFin 5]) (mk_ndarray [1; 1] [EFin 3]) None true =
  Raise ZeroVariance.
Proof.
  split.
  - apply (proj1 zero_variance_errors) with (c := 1%R); try reflexivity.
    + exists 0. repeat split. simpl. lia.
    + intros w E. injection E as <-. repeat split.
      * finite_cells.
      * unfold_reals. lra.
    + left. intros x [<-|[<-|[<-|[]]]]; reflexivity.
  - apply (proj2 zero_variance_errors). reflexivity.
Defined.

(** C4 as stated fails: a pair of one-cell patterns that is not
    centered returns 1, under both instances; and a constant pattern
    paired with a pattern holding only NaN raises the empty-input
    error. *)
Lemma single_point_uncentered_returns_one :
  calculate_pattern_correlation (D:=binary64)
    (mk_ndarray [1; 1] [5%float]) (mk_ndarray [1; 1] [3%float]) None false =
  Ok 1%float /\
  calculate_pattern_correlation (D:=exact)
    (mk_ndarray [1; 1] [EFin 5]) (mk_ndarray [1; 1] [EFin 3]) None false =
  Ok (EFin 1) /\
  calculate_pattern_correlation (D:=binary64)
    (arr1 [1%float; 1%float]) (arr1 [PrimFloat.nan; PrimFloat.nan])
    None true = Raise NoValidData.
Proof.
  split; [vm_compute; reflexivity | split; [|vm_compute; reflexivity]].
  replace (EFin 1) with (EFin (15 / (5 * 3))) by (f_equal; lra).
  apply exact_correlation_squares; try reflexivity.
  - unfold_reals. discriminate.
  - discriminate.
  - finite_cells.
  - unfold_reals. lra.
  - unfold rtol. lra.
  - unfold rtol. lra.
  - unfold_reals. lra.
  - unfold_reals. lra.
  - unfold_reals. lra.
Qed.

(** * Weights *)

Section SameWeights.
Context {D : Dtype}.

(** Weights that normalize to the normalized unit weights give the
    result of the call without weights. *)
Lemma same_norm_weights_same_result (p1 p2 w : ndarray num)
    (centered : bool) :
  well_formed p1 -> well_formed p2 -> well_formed w ->
  shape w = shape p1 ->
  (forall i, In i (valid_positions p1 p2) ->
     norm_weight p1 p2 (Some w) i = norm_weight p1 p2 None i) ->
  calculate_pattern_correlation p1 p2 (Some w) centered =
  calculate_pattern_correlation p1 p2 None centered.
Proof.
  intros W1 W2 Ww Hsw Hn.
  destruct (list_eq_dec Nat.eq_dec (shape p1) (shape p2)) as [Hs|Hs].
  2:{ now rewrite !(mismatch_first p1 p2 _ centered Hs). }
  destruct (valid_positions p1 p2) as [|i0 idx] eqn:EV.
  { now rewrite !(empty_second p1 p2 _ centered W1 W2 Hs EV). }
  assert (HV : valid_positions p1 p2 <> []) by (rewrite EV; discriminate).
  rewrite <- EV in Hn. clear EV i0 idx.
  rewrite (correlation_validated p1 p2 (Some w) centered W1 W2 Hs HV)
    by (intros w' E; injection E as <-; now split).
  rewrite (correlation_validated p1 p2 None centered W1 W2 Hs HV)
    by discriminate.
  destruct (formula_ext p1 p2 (Some w) None centered Hn) as [E1 [E2 E3]].
  now rewrite E1, E2, E3.
Qed.

Lemma unit_weights_same_result (p1 p2 w : ndarray num) (centered : bool) :
  well_formed p1 -> well_formed p2 -> well_formed w ->
  shape w = shape p1 ->
  (forall x, In x (data w) -> x = one) ->
  calculate_pattern_correlation p1 p2 (Some w) centered =
  calculate_pattern_correlation p1 p2 None centered.
Proof.
  intros W1 W2 Ww Hsw Hone.
  apply same_norm_weights_same_result; auto.
  assert (Hraw : forall i, In i (valid_positions p1 p2) ->
                   raw_weight (Some w) i = raw_weight None i).
  { intros i Hi. apply valid_position_lt in Hi. destruct Hi as [Hi _].
    cbn [raw_weight]. apply Hone, nth_In.
    unfold well_formed in *. rewrite Ww, Hsw, <- W1. exact Hi. }
  intros i Hi. unfold norm_weight.
  now rewrite (Hraw i Hi), (sum_over_ext _ _ _ Hraw).
Qed.

End SameWeights.

Lemma constant_weights_same_result (p1 p2 w : ndarray (@num exact))
    (centered : bool) (c : R) :
  well_formed p1 -> well_formed p2 -> well_formed w ->
  shape w = shape p1 -> constant_array w c -> (0 < c)%R ->
  calculate_pattern_correlation (D:=exact) p1 p2 (Some w) centered =
  calculate_pattern_correlation (D:=exact) p1 p2 None centered.
Proof.
  intros W1 W2 Ww Hsw Hc Hpos.
  apply same_norm_weights_same_result; auto.
  intros i Hi.
  assert (HV : valid_positions (D:=exact) p1 p2 <> [])
    by (intros E; rewrite E in Hi; destruct Hi).
  assert (Hraw : forall j, In j (valid_positions (D:=exact) p1 p2) ->
                   raw_weight (D:=exact) (Some w) j = EFin c).
  { intros j Hj. apply (valid_position_lt (D:=exact)) in Hj.
    destruct Hj as [Hj _]. cbn [raw_weight]. apply Hc, nth_In.
    unfold well_formed in *. rewrite Ww, Hsw, <- W1. exact Hj. }
  assert (Hfin : finite_weights p1 p2 (Some w)).
  { intros j Hj. exists c. now apply Hraw. }
  assert (Htot : rtotal p1 p2 (Some w) =
                 (INR (length (valid_positions (D:=exact) p1 p2)) * c)%R).
  { unfold rtotal. rewrite <- rsum_const. apply rsum_ext.
    intros j Hj. unfold rraw. now rewrite (Hraw j Hj). }
  assert (Hk : (0 < INR (length (valid_positions (D:=exact) p1 p2)))%R).
  { rewrite <- rtotal_none. now apply rtotal_none_pos. }
  rewrite (norm_weight_fin p1 p2 (Some w) Hfin) by (rewrite ?Htot; nra || exact Hi).
  rewrite (norm_weight_fin p1 p2 None (finite_none p1 p2))
    by (rewrite ?rtotal_none; lra || exact Hi).
  f_equal. unfold rweight. rewrite Htot, rtotal_none.
  unfold rraw. rewrite (Hraw i Hi). cbn [raw_weight one exact real_of].
  field. split; lra.
Qed.

(** C7, as the code has it: a weight array of the shape of the
    patterns whose cells all are 1.0 gives the result of the call
    without weights, for every element type; a weight array whose cells
    all are the same positive constant gives it under the exact
    instance. *)
Theorem uniform_weights_same_result :
  (forall (D : Dtype) (p1 p2 w : ndarray num) (centered : bool),
     well_formed p1 -> well_formed p2 -> well_formed w ->
     shape w = shape p1 ->
     (forall x, In x (data w) -> x = one) ->
     calculate_pattern_correlation p1 p2 (Some w) centered =
     calculate_pattern_correlation p1 p2 None centered) /\
  (forall (p1 p2 w : ndarray (@num exact)) (centered : bool) (c : R),
     well_formed p1 -> well_formed p2 -> well_formed w ->
     shape w = shape p1 -> constant_array w c -> (0 < c)%R ->
     calculate_pattern_correlation (D:=exact) p1 p2 (Some w) centered =
     calculate_pattern_correlation (D:=exact) p1 p2 None centered).
Proof.
  split.
  - intros D. apply unit_weights_same_result.
  - apply constant_weights_same_result.
Qed.

Lemma uniform_weights_same_result_witness :
  calculate_pattern_correlation (D:=binary64)
    (arr1 [1%float; 2%float; 4%float]) (arr1 [1%float; 3%float; 2%float])
    (Some (arr1 [1%float; 1%float; 1%float])) true =
  calculate_pattern_correlation (D:=binary64)
    (arr1 [1%float; 2%float; 4%float]) (arr1 [1%float; 3%float; 2%float])
    None true /\
  calculate_pattern_correlation (D:=exact)
    (arr1 [EFin 1; EFin 2; EFin 4]) (arr1 [EFin 1; ENaN; EFin 2])
    (Some (arr1 [EFin 3; EFin 3; EFin 3])) false =
  calculate_pattern_correlation (D:=exact)
    (arr1 [EFin 1; EFin 2; EFin 4]) (arr1 [EFin 1; ENaN; EFin 2])
    None false.
Proof.
  split.
  - apply (proj1 uniform_weights_same_result binary64); try reflexivity.
    intros x [<-|[<-|[<-|[]]]]; reflexivity.
  - apply (proj2 uniform_weights_same_result) with (c := 3%R);
      try reflexivity; [|lra].
    intros x [<-|[<-|[<-|[]]]]; reflexivity.
Defined.

(** C7 as stated fails under binary64: with the uniform weight 0.3 on
    three cells the normalized weights are not those of the call
    without weights, and the two results differ in the last place. *)
Lemma uniform_weights_rounding :
  calculate_pattern_correlation (D:=binary64)
    (arr1 [1%float; 1%float; 0%float]) (arr1 [1%float; 1%float; 0%float])
    (Some (arr1 [0x1.3333333333333p-2%float; 0x1.3333333333333p-2%float;
                 0x1.3333333333333p-2%float])) false =
  Ok 0x1.0000000000001p+0%float /\
  calculate_pattern_correlation (D:=binary64)
    (arr1 [1%float; 1%float; 0%float]) (arr1 [1%float; 1%float; 0%float])
    None false = Ok 1%float /\
  PrimFloat.eqb 0x1.0000000000001p+0%float 1%float = false.
Proof. repeat split; vm_compute; reflexivity. Qed.

(** C8, as the code has it, for the exact instance: when the patterns
    pass the validations, the weights used in the sums are the weights
    of the valid positions (1 for each when none is supplied) divided
    by their sum; when the supplied weights are numbers with a sum
    other than zero on the valid positions, and when no weights are
    supplied, the weights used sum to 1; without weights each is one
    over the number of valid positions. *)
Theorem weights_normalized
    (p1 p2 : ndarray (@num exact)) (weights : option (ndarray (@num exact)))
    (centered : bool) :
  well_formed p1 -> well_formed p2 -> shape p1 = shape p2 ->
  has_valid_position (D:=exact) p1 p2 ->
  (forall w, weights = Some w ->
     well_formed w /\ shape w = shape p1 /\
     finite_weights p1 p2 weights /\ rtotal p1 p2 weights <> 0%R) ->
  let mask := valid_mask (D:=exact) (data p1) (data p2) in
  let V := valid_positions (D:=exact) p1 p2 in
  exists wv,
    weights_valid (D:=exact) p1 weights mask = Ok wv /\
    wv = map (raw_weight (D:=exact) weights) V /\
    calculate_pattern_correlation (D:=exact) p1 p2 weights centered =
    correlate (D:=exact) (mask_index (data p1) mask)
      (mask_index (data p2) mask) (normalize (D:=exact) wv) centered /\
    normalize (D:=exact) wv =
    map (fun i => EFin (rraw weights i / rtotal p1 p2 weights)) V /\
    np_sum (D:=exact) (normalize (D:=exact) wv) = EFin 1 /\
    (weights = None ->
     normalize (D:=exact) wv = map (fun _ => EFin (1 / INR (length V))) V).
Proof.
  intros W1 W2 Hs HV Hw mask V.
  apply has_valid_positions in HV. fold V in HV.
  pose proof (same_shape_same_length p1 p2 Hs W1 W2) as Hlen.
  assert (Hfacts : finite_weights p1 p2 weights /\
                   rtotal p1 p2 weights <> 0%R).
  { destruct weights as [w|].
    - destruct (Hw w eq_refl) as [_ [_ H]]. exact H.
    - split; [apply finite_none|].
      pose proof (rtotal_none_pos p1 p2 HV). lra. }
  destruct Hfacts as [Hfin Htot].
  assert (Ewv : weights_valid (D:=exact) p1 weights mask =
                Ok (map (raw_weight (D:=exact) weights) V)).
  { unfold weights_valid, flatten, mask. destruct weights as [w|].
    - destruct (Hw w eq_refl) as [Ww [Hsw _]].
      rewrite Hsw, shape_eqb_refl. cbn [negb].
      rewrite (mask_index_valid p1 p2 (data w) Hlen); [reflexivity|].
      unfold well_formed in *. now rewrite Ww, Hsw, W1.
    - rewrite (mask_index_valid p1 p2 (data p1) Hlen eq_refl).
      unfold np_ones_like. now rewrite map_map. }
  assert (Enorm : normalize (D:=exact) (map (raw_weight (D:=exact) weights) V)
                  = map (fun i => EFin (rraw weights i / rtotal p1 p2 weights))
                        V).
  { rewrite normalize_map. apply map_ext_in. intros i Hi.
    exact (norm_weight_fin p1 p2 weights Hfin Htot i Hi). }
  exists (map (raw_weight (D:=exact) weights) V).
  split; [exact Ewv | split; [reflexivity|]]. split; [|split; [exact Enorm|split]].
  - unfold calculate_pattern_correlation, flatten. fold mask.
    rewrite Hs, shape_eqb_refl. cbn [negb].
    destruct (np_any mask) eqn:Eany.
    + cbn [negb]. now rewrite Ewv.
    + apply (np_any_valid p1 p2 Hlen) in Eany. contradiction.
  - rewrite Enorm.
    change (np_sum (D:=exact)
              (map (fun i => EFin (rraw weights i / rtotal p1 p2 weights)) V))
      with (sum_over (D:=exact) V
              (fun i => EFin (rraw weights i / rtotal p1 p2 weights))).
    rewrite (sum_over_fin V _ (rweight p1 p2 weights)) by reflexivity.
    f_equal. now apply rweight_sum.
  - intros ->. rewrite Enorm. apply map_ext. intros i.
    now rewrite rtotal_none.
Qed.

Lemma weights_normalized_witness :
  exists wv,
    weights_valid (D:=exact) (arr1 [EFin 1; ENaN; EFin 2])
      (Some (arr1 [EFin 3; EFin 5; EFin (-1)]))
      (valid_mask (D:=exact) [EFin 1; ENaN; EFin 2]
                             [EFin 2; EFin 0; EFin 1]) = Ok wv /\
    np_sum (D:=exact) (normalize (D:=exact) wv) = EFin 1.
Proof.
  destruct (weights_normalized
              (arr1 [EFin 1; ENaN; EFin 2]) (arr1 [EFin 2; EFin 0; EFin 1])
              (Some (arr1 [EFin 3; EFin 5; EFin (-1)])) true
              eq_refl eq_refl eq_refl) as [wv [H1 [_ [_ [_ [H2 _]]]]]].
  - exists 0. repeat split. simpl. lia.
  - intros w E. injection E as <-. repeat split.
    + finite_cells.
    + unfold_reals. lra.
  - exists wv. split; [exact H1 | exact H2].
Defined.

(** C8 as stated fails: weights that are all zero are divided by
    their sum 0, and the weights used are NaN, under both instances. *)
Lemma zero_weights_not_normalized :
  weights_valid (D:=binary64) (arr1 [1%float; 2%float])
    (Some (arr1 [0%float; 0%float]))
    (valid_mask (D:=binary64) [1%float; 2%float] [2%float; 1%float]) =
  Ok [0%float; 0%float] /\
  normalize (D:=binary64) [0%float; 0%float] =
  [PrimFloat.nan; PrimFloat.nan] /\
  PrimFloat.eqb (np_sum (D:=binary64)
                   (normalize (D:=binary64) [0%float; 0%float]))
                1%float = false /\
  weights_valid (D:=exact) (arr1 [EFin 1; EFin 2])
    (Some (arr1 [EFin 0; EFin 0]))
    (valid_mask (D:=exact) [EFin 1; EFin 2] [EFin 2; EFin 1]) =
  Ok [EFin 0; EFin 0] /\
  np_sum (D:=exact) (normalize (D:=exact) [EFin 0; EFin 0]) = ENaN.
Proof.
  repeat split; try (vm_compute; reflexivity).
  rewrite np_sum_exact. unfold normalize. rewrite np_sum_exact.
  cbn. destruct (Req_dec_T (0 + (0 + 0)) 0) as [_|H]; [reflexivity|].
  exfalso. apply H. lra.
Qed.

(** * Rounding under binary64 *)

(** [np.sum] does not add from left to right: on 2^53 followed by
    eight ones the accumulators keep seven of the ones, which a plain
    loop loses one after the other. *)
Example np_sum_adds_pairwise :
  np_sum (D:=binary64)
    [0x1p+53%float; 1%float; 1%float; 1%float; 1%float; 1%float;
     1%float; 1%float; 1%float] = 0x1.0000000000004p+53%float /\
  sum_loop (D:=binary64) 0%float
    [0x1p+53%float; 1%float; 1%float; 1%float; 1%float; 1%float;
     1%float; 1%float; 1%float] = 0x1p+53%float.
Proof. split; vm_compute; reflexivity. Qed.

(** Without weights and without centering, the pattern [1, 1, 1, 3]
    against itself has variance 3; the square of the rounded square
    root of 3 is below 3 and the quotient is above 1. *)
Example binary64_self_correlation_above_one :
  calculate_pattern_correlation (D:=binary64)
    (arr1 [1%float; 1%float; 1%float; 3%float])
    (arr1 [1%float; 1%float; 1%float; 3%float]) None false =
  Ok 0x1.0000000000001p+0%float /\
  PrimFloat.ltb 1%float 0x1.0000000000001p+0%float = true.
Proof. split; vm_compute; reflexivity. Qed.

(** The tolerance of line 131 is absolute: the weighted mean of the
    constant 7654321 on three cells is rounded, the centered cells are
    not zero and the standard deviation passes the test. *)
Example binary64_large_constant_passes_tolerance :
  exists r,
    calculate_pattern_correlation (D:=binary64)
      (arr1 [7654321%float; 7654321%float; 7654321%float])
      (arr1 [1%float; 2%float; 4%float]) None true = Ok r.
Proof. eexists. vm_compute. reflexivity. Qed.

(** * Further properties of the correlation *)

Section Masking.
Context {D : Dtype}.

Lemma mask_index_all (A : Type) (l : list A) :
  mask_index l (repeat true (length l)) = l.
Proof. induction l as [|x l IH]; simpl; [reflexivity | now rewrite IH]. Qed.

Lemma mask_index_same_length (A B : Type) (a : list A) (b : list B)
    (m : list bool) :
  length a = length b ->
  length (mask_index a m) = length (mask_index b m).
Proof.
  revert b m; induction a as [|x a IH]; intros [|y b] [|v m] H;
    simpl in *; try discriminate; try reflexivity.
  injection H as H. destruct v; simpl; auto.
Qed.

(** After masking, every position is valid. *)
Lemma valid_mask_masked (a b : list num) :
  valid_mask (mask_index a (valid_mask a b))
             (mask_index b (valid_mask a b)) =
  repeat true (length (mask_index a (valid_mask a b))).
Proof.
  revert b; induction a as [|x a IH]; intros [|y b]; simpl;
    try reflexivity.
  destruct (negb (np_isnan x || np_isnan y)) eqn:E; simpl.
  - unfold valid_mask in *. simpl. rewrite E. f_equal. apply IH.
  - apply IH.
Qed.

Lemma np_any_repeat (k : nat) :
  np_any (repeat true k) = negb (Nat.eqb k 0).
Proof. destruct k; reflexivity. Qed.

Lemma np_any_masked (A : Type) (a : list A) (m : list bool) :
  length a = length m ->
  np_any m = negb (Nat.eqb (length (mask_index a m)) 0).
Proof.
  revert m; induction a as [|x a IH]; intros [|v m] H; simpl in *;
    try discriminate; try reflexivity.
  injection H as H. destruct v; simpl; [reflexivity | now apply IH].
Qed.

End Masking.

Section MaskingSteps.
Context {D : Dtype}.

Lemma correlation_steps (p1 p2 : ndarray num)
    (weights : option (ndarray num)) (centered : bool) :
  shape p1 = shape p2 ->
  calculate_pattern_correlation p1 p2 weights centered =
  if np_any (valid_mask (data p1) (data p2)) then
    match weights_valid p1 weights (valid_mask (data p1) (data p2)) with
    | Raise e => Raise e
    | Ok wv =>
        correlate (mask_index (data p1) (valid_mask (data p1) (data p2)))
                  (mask_index (data p2) (valid_mask (data p1) (data p2)))
                  (normalize wv) centered
    end
  else Raise NoValidData.
Proof.
  intros Hs. unfold calculate_pattern_correlation, flatten.
  rewrite Hs, shape_eqb_refl. cbn [negb].
  now destruct (np_any _).
Qed.

Lemma weights_valid_cells (p1 p2 : ndarray num)
    (weights : option (ndarray num)) :
  well_formed p1 ->
  (forall w, weights = Some w -> well_formed w /\ shape w = shape p1) ->
  weights_valid (valid_cells p1 p2 p1)
    (option_map (valid_cells p1 p2) weights)
    (repeat true
       (length (mask_index (data p1) (valid_mask (data p1) (data p2))))) =
  weights_valid p1 weights (valid_mask (data p1) (data p2)).
Proof.
  intros W1 Hw. unfold weights_valid.
  destruct weights as [w|]; cbn [option_map].
  - destruct (Hw w eq_refl) as [Ww Hsw].
    assert (Hlw : length (data w) = length (data p1)).
    { unfold well_formed in *. now rewrite Ww, Hsw, W1. }
    rewrite Hsw, shape_eqb_refl.
    unfold valid_cells, arr1, flatten. cbn [shape data].
    rewrite (mask_index_same_length _ _ (data w) (data p1) _ Hlw).
    rewrite shape_eqb_refl. cbn [negb].
    rewrite <- (mask_index_same_length _ _ (data w) (data p1) _ Hlw).
    now rewrite mask_index_all.
  - unfold valid_cells, arr1, flatten. cbn [shape data].
    now rewrite mask_index_all.
Qed.

End MaskingSteps.

(** X1: the cells at positions where one of the patterns holds a NaN
    play no part: the call gives what it gives on the one-dimensional
    arrays of the cells (and weights) at the valid positions. *)
Theorem nan_positions_ignored {D : Dtype}
    (p1 p2 : ndarray num) (weights : option (ndarray num))
    (centered : bool) :
  well_formed p1 -> well_formed p2 -> shape p1 = shape p2 ->
  (forall w, weights = Some w -> well_formed w /\ shape w = shape p1) ->
  calculate_pattern_correlation p1 p2 weights centered =
  calculate_pattern_correlation (valid_cells p1 p2 p1) (valid_cells p1 p2 p2)
    (option_map (valid_cells p1 p2) weights) centered.
Proof.
  intros W1 W2 Hs Hw.
  pose proof (same_shape_same_length p1 p2 Hs W1 W2) as Hlen.
  pose proof (mask_index_same_length _ _ (data p1) (data p2)
                (valid_mask (data p1) (data p2)) Hlen) as Hq.
  rewrite (correlation_steps p1 p2 weights centered Hs).
  rewrite (correlation_steps (valid_cells p1 p2 p1) (valid_cells p1 p2 p2))
    by (unfold valid_cells, arr1, flatten; cbn [shape]; now rewrite Hq).
  change (data (valid_cells p1 p2 p1))
    with (mask_index (data p1) (valid_mask (data p1) (data p2))).
  change (data (valid_cells p1 p2 p2))
    with (mask_index (data p2) (valid_mask (data p1) (data p2))).
  rewrite valid_mask_masked, np_any_repeat.
  rewrite (weights_valid_cells p1 p2 weights W1 Hw).
  rewrite (np_any_masked _ (data p1) (valid_mask (data p1) (data p2)))
    by now rewrite valid_mask_length.
  destruct (negb (Nat.eqb _ 0)); [|reflexivity].
  rewrite mask_index_all, Hq, mask_index_all. reflexivity.
Qed.

Lemma nan_positions_ignored_witness :
  calculate_pattern_correlation (D:=binary64)
    (arr1 [1%float; PrimFloat.nan; 2%float; 4%float; 7%float])
    (arr1 [2%float; 5%float; PrimFloat.nan; 1%float; 3%float])
    (Some (arr1 [1%float; 2%float; 3%float; 4%float; 5%float])) true =
  calculate_pattern_correlation (D:=binary64)
    (arr1 [1%float; 4%float; 7%float]) (arr1 [2%float; 1%float; 3%float])
    (Some (arr1 [1%float; 4%float; 5%float])) true.
Proof.
  apply (nan_positions_ignored (D:=binary64)
    (arr1 [1%float; PrimFloat.nan; 2%float; 4%float; 7%float])
    (arr1 [2%float; 5%float; PrimFloat.nan; 1%float; 3%float])
    (Some (arr1 [1%float; 2%float; 3%float; 4%float; 5%float])) true);
    try reflexivity.
  intros w E. injection E as <-. split; reflexivity.
Defined.

Section Symmetry.
Local Open Scope R_scope.

Lemma valid_mask_sym {D : Dtype} (a b : list num) :
  valid_mask a b = valid_mask b a.
Proof.
  unfold valid_mask. revert b; induction a as [|x a IH]; intros [|y b];
    simpl; try reflexivity.
  now rewrite IH, orb_comm.
Qed.

Lemma np_ones_like_length {D : Dtype} (a b : list num) :
  length a = length b -> np_ones_like a = np_ones_like b.
Proof.
  unfold np_ones_like. revert b; induction a as [|x a IH]; intros [|y b] H;
    simpl in *; try discriminate; try reflexivity.
  injection H as H. now rewrite (IH b H).
Qed.

Lemma xmul_comm (x y : xreal) : xlift2 Rmult x y = xlift2 Rmult y x.
Proof. destruct x, y; simpl; try reflexivity. f_equal. ring. Qed.

Lemma xmul_swap (w x y : xreal) :
  xlift2 Rmult (xlift2 Rmult w x) y = xlift2 Rmult (xlift2 Rmult w y) x.
Proof. destruct w, x, y; simpl; try reflexivity. f_equal. ring. Qed.

Lemma zip_with_swap (w a b : list xreal) :
  zip_with (xlift2 Rmult) (zip_with (xlift2 Rmult) w a) b =
  zip_with (xlift2 Rmult) (zip_with (xlift2 Rmult) w b) a.
Proof.
  revert a b; induction w as [|x w IH]; intros [|y a] [|z b]; simpl;
    try reflexivity.
  now rewrite IH, xmul_swap.
Qed.

Lemma correlate_sym (a b w : list xreal) (centered : bool) :
  correlate (D:=exact) a b w centered = correlate (D:=exact) b a w centered.
Proof.
  unfold correlate. change (@fmul exact) with (xlift2 Rmult).
  destruct centered; cbv zeta; rewrite zip_with_swap;
    match goal with
    | |- context [xlift2 Rmult (np_sqrt ?u) (np_sqrt ?v)] =>
        rewrite (xmul_comm (np_sqrt u) (np_sqrt v));
        generalize (np_sqrt u) (np_sqrt v)
    end;
    intros s1 s2;
    destruct (feq s1 zero), (feq s2 zero), (flt (np_abs s1) tol),
      (flt (np_abs s2) tol); reflexivity.
Qed.

End Symmetry.

(** X2: under exact arithmetic the correlation is symmetric in its two
    patterns, errors included, whatever the weights and the centering
    flag are. *)
Theorem correlation_symmetric
    (p1 p2 : ndarray (@num exact)) (weights : option (ndarray (@num exact)))
    (centered : bool) :
  well_formed p1 -> well_formed p2 ->
  calculate_pattern_correlation (D:=exact) p1 p2 weights centered =
  calculate_pattern_correlation (D:=exact) p2 p1 weights centered.
Proof.
  intros W1 W2.
  destruct (list_eq_dec Nat.eq_dec (shape p1) (shape p2)) as [Hs|Hs].
  2:{ rewrite (mismatch_first p1 p2 weights centered Hs).
      now rewrite (mismatch_first p2 p1 weights centered)
        by (intros E; now apply Hs). }
  pose proof (same_shape_same_length p1 p2 Hs W1 W2) as Hlen.
  rewrite (correlation_steps p1 p2 weights centered Hs).
  rewrite (correlation_steps p2 p1 weights centered (eq_sym Hs)).
  rewrite (valid_mask_sym (data p2) (data p1)).
  assert (Ew : weights_valid (D:=exact) p2 weights
                 (valid_mask (data p1) (data p2)) =
               weights_valid (D:=exact) p1 weights
                 (valid_mask (data p1) (data p2))).
  { unfold weights_valid, flatten. destruct weights as [w|].
    - now rewrite Hs.
    - f_equal. apply np_ones_like_length.
      now apply mask_index_same_length. }
  rewrite Ew. clear Ew. destruct (np_any _); [|reflexivity].
  destruct (weights_valid p1 weights _) as [wv|e]; [|reflexivity].
  apply correlate_sym.
Qed.

Lemma correlation_symmetric_witness :
  calculate_pattern_correlation (D:=exact)
    (arr1 [EFin 1; EFin 2; ENaN]) (arr1 [EFin 3; EFin 5; EFin 4])
    (Some (arr1 [EFin 2; EFin 1; EFin 1])) true =
  calculate_pattern_correlation (D:=exact)
    (arr1 [EFin 3; EFin 5; EFin 4]) (arr1 [EFin 1; EFin 2; ENaN])
    (Some (arr1 [EFin 2; EFin 1; EFin 1])) true.
Proof.
  apply (correlation_symmetric
           (arr1 [EFin 1; EFin 2; ENaN]) (arr1 [EFin 3; EFin 5; EFin 4])
           (Some (arr1 [EFin 2; EFin 1; EFin 1])) true); reflexivity.
Defined.

Section WeightScale.
Local Open Scope R_scope.

Lemma nth_map_lt (A B : Type) (f : A -> B) (l : list A) (i : nat)
    (d : B) (d' : A) :
  (i < length l)%nat -> nth i (map f l) d = f (nth i l d').
Proof.
  intros H. rewrite (nth_indep (map f l) d (f d')) by now rewrite length_map.
  apply map_nth.
Qed.

(** Two weight arrays with the same normalized weights at the valid
    positions give the same result. *)
Lemma same_norm_weights {D : Dtype} (p1 p2 w w' : ndarray num)
    (centered : bool) :
  well_formed p1 -> well_formed p2 -> well_formed w -> well_formed w' ->
  shape w = shape p1 -> shape w' = shape p1 ->
  (forall i, In i (valid_positions p1 p2) ->
     norm_weight p1 p2 (Some w) i = norm_weight p1 p2 (Some w') i) ->
  calculate_pattern_correlation p1 p2 (Some w) centered =
  calculate_pattern_correlation p1 p2 (Some w') centered.
Proof.
  intros W1 W2 Ww Ww' Hsw Hsw' Hn.
  destruct (list_eq_dec Nat.eq_dec (shape p1) (shape p2)) as [Hs|Hs].
  2:{ now rewrite !(mismatch_first p1 p2 _ centered Hs). }
  destruct (valid_positions p1 p2) as [|i0 idx] eqn:EV.
  { now rewrite !(empty_second p1 p2 _ centered W1 W2 Hs EV). }
  assert (HV : valid_positions p1 p2 <> []) by (rewrite EV; discriminate).
  rewrite <- EV in Hn. clear EV i0 idx.
  rewrite (correlation_validated p1 p2 (Some w) centered W1 W2 Hs HV)
    by (intros v E; injection E as <-; now split).
  rewrite (correlation_validated p1 p2 (Some w') centered W1 W2 Hs HV)
    by (intros v E; injection E as <-; now split).
  destruct (formula_ext p1 p2 (Some w) (Some w') centered Hn)
    as [E1 [E2 E3]].
  now rewrite E1, E2, E3.
Qed.

Lemma xscale_plus (k : R) (a x : xreal) :
  xlift2 Rplus (xscale k a) (xscale k x) = xscale k (xlift2 Rplus a x).
Proof.
  unfold xscale. destruct a, x; simpl; try reflexivity. f_equal. ring.
Qed.

Lemma np_sum_scale (k : R) (l : list xreal) :
  np_sum (D:=exact) (map (xscale k) l) = xscale k (np_sum (D:=exact) l).
Proof.
  rewrite !np_sum_exact.
  induction l as [|x l IH]; cbn [map fold_right].
  - unfold xscale; simpl. f_equal. ring.
  - now rewrite IH, xscale_plus.
Qed.

Lemma xdiv_scale (k : R) (a t : xreal) :
  k <> 0 -> xdiv (xscale k a) (xscale k t) = xdiv a t.
Proof.
  intros Hk. unfold xscale.
  destruct a as [|a], t as [|t]; simpl; try reflexivity.
  destruct (Req_dec_T (k * t) 0) as [E|E], (Req_dec_T t 0) as [E'|E'];
    try reflexivity.
  - exfalso. apply Rmult_integral in E. tauto.
  - exfalso. apply E. rewrite E'. ring.
  - f_equal. field. tauto.
Qed.

End WeightScale.

(** X3: under exact arithmetic only the proportions of the weights
    count: multiplying every weight by the same number other than zero
    does not change the result, errors included. *)
Theorem weights_scale_invariant
    (p1 p2 w : ndarray (@num exact)) (centered : bool) (k : R) :
  well_formed p1 -> well_formed p2 -> well_formed w ->
  shape w = shape p1 -> k <> 0%R ->
  calculate_pattern_correlation (D:=exact) p1 p2
    (Some (@map_array (@num exact) (@num exact) (xscale k) w)) centered =
  calculate_pattern_correlation (D:=exact) p1 p2 (Some w) centered.
Proof.
  intros W1 W2 Ww Hsw Hk.
  assert (Hlw : length (data w) = length (data p1)).
  { unfold well_formed in *. now rewrite Ww, Hsw, W1. }
  apply same_norm_weights; auto.
  - unfold well_formed, map_array. cbn [shape data].
    now rewrite length_map.
  - assert (Hraw : forall j, In j (valid_positions (D:=exact) p1 p2) ->
               raw_weight (D:=exact) (Some (@map_array (@num exact) (@num exact) (xscale k) w)) j =
               xscale k (raw_weight (D:=exact) (Some w) j)).
    { intros j Hj. apply (valid_position_lt (D:=exact)) in Hj.
      destruct Hj as [Hj _]. unfold raw_weight, map_array. cbn [data].
      apply nth_map_lt. now rewrite Hlw. }
    assert (Esum :
      sum_over (D:=exact) (valid_positions (D:=exact) p1 p2)
        (raw_weight (D:=exact)
           (Some (@map_array (@num exact) (@num exact) (xscale k) w))) =
      xscale k (sum_over (D:=exact) (valid_positions (D:=exact) p1 p2)
                  (raw_weight (D:=exact) (Some w)))).
    { unfold sum_over. rewrite <- np_sum_scale, map_map. f_equal.
      apply map_ext_in. exact Hraw. }
    intros i Hi. unfold norm_weight. rewrite Esum, (Hraw i Hi).
    change (@fdiv exact) with xdiv. now apply xdiv_scale.
Qed.

Lemma weights_scale_invariant_witness :
  calculate_pattern_correlation (D:=exact)
    (arr1 [EFin 1; EFin 2; EFin 4]) (arr1 [EFin 1; EFin 3; EFin 2])
    (Some (@map_array (@num exact) (@num exact) (xscale 5)
             (arr1 [EFin 3; EFin 1; EFin 2]))) true =
  calculate_pattern_correlation (D:=exact)
    (arr1 [EFin 1; EFin 2; EFin 4]) (arr1 [EFin 1; EFin 3; EFin 2])
    (Some (arr1 [EFin 3; EFin 1; EFin 2])) true.
Proof.
  apply (weights_scale_invariant
           (arr1 [EFin 1; EFin 2; EFin 4]) (arr1 [EFin 1; EFin 3; EFin 2])
           (arr1 [EFin 3; EFin 1; EFin 2]) true 5); try reflexivity.
  lra.
Defined.

Lemma rsum_plus (idx : list nat) (f g : nat -> R) :
  rsum idx (fun i => (f i + g i)%R) = (rsum idx f + rsum idx g)%R.
Proof.
  unfold rsum. induction idx as [|i idx IH]; simpl; [lra|].
  rewrite IH. lra.
Qed.

(** Patterns changed cell by cell by [x -> a * x + b]. *)
Section Affine.
Local Open Scope R_scope.
Variables P1 P2 Q1 Q2 : ndarray (@num exact).
Variable weights : option (ndarray (@num exact)).
Variable centered : bool.
Hypothesis HV :
  valid_positions (D:=exact) Q1 Q2 = valid_positions (D:=exact) P1 P2.

Let V := valid_positions (D:=exact) P1 P2.

Lemma affine_rtotal : rtotal Q1 Q2 weights = rtotal P1 P2 weights.
Proof. unfold rtotal. now rewrite HV. Qed.

Lemma affine_rweight (i : nat) :
  rweight Q1 Q2 weights i = rweight P1 P2 weights i.
Proof. unfold rweight. now rewrite affine_rtotal. Qed.

Lemma affine_finite :
  finite_weights P1 P2 weights -> finite_weights Q1 Q2 weights.
Proof. unfold finite_weights. now rewrite HV. Qed.

Section OneAffine.
Variables P Q : ndarray (@num exact).
Variables a b : R.
Hypothesis Hcell : forall i, In i V -> rcell Q i = a * rcell P i + b.
Hypothesis Htot : rtotal P1 P2 weights <> 0.
Hypothesis Hb : centered = true \/ b = 0.

Lemma affine_rmean :
  rmean Q1 Q2 weights Q = a * rmean P1 P2 weights P + b.
Proof.
  unfold rmean. rewrite HV. fold V.
  rewrite (rsum_ext V _
            (fun i => a * (rcell P i * rweight P1 P2 weights i)
                      + b * rweight P1 P2 weights i)).
  - rewrite rsum_plus, !rsum_scal_l.
    unfold V. rewrite (rweight_sum P1 P2 weights Htot). lra.
  - intros i Hi. rewrite affine_rweight, (Hcell i Hi). ring.
Qed.

Lemma affine_rcentered (i : nat) :
  In i V ->
  rcentered Q1 Q2 weights centered Q i =
  a * rcentered P1 P2 weights centered P i.
Proof.
  intros Hi. unfold rcentered. rewrite affine_rmean, (Hcell i Hi).
  destruct centered; [ring|].
  destruct Hb as [Hb'|Hb']; [discriminate | rewrite Hb'; ring].
Qed.

Lemma affine_rvar :
  rvar Q1 Q2 weights centered Q = a * a * rvar P1 P2 weights centered P.
Proof.
  unfold rvar. rewrite HV. fold V. rewrite <- rsum_scal_l.
  apply rsum_ext. intros i Hi.
  rewrite affine_rweight, (affine_rcentered i Hi). ring.
Qed.

End OneAffine.

Lemma affine_rcov (a1 b1 a2 b2 : R) :
  (forall i, In i V -> rcell Q1 i = a1 * rcell P1 i + b1) ->
  (forall i, In i V -> rcell Q2 i = a2 * rcell P2 i + b2) ->
  rtotal P1 P2 weights <> 0 ->
  centered = true \/ (b1 = 0 /\ b2 = 0) ->
  rcov Q1 Q2 weights centered = a1 * a2 * rcov P1 P2 weights centered.
Proof.
  intros H1 H2 Htot Hb. unfold rcov. rewrite HV. fold V.
  rewrite <- rsum_scal_l. apply rsum_ext. intros i Hi.
  rewrite affine_rweight.
  rewrite (affine_rcentered P1 Q1 a1 b1 H1 Htot) by tauto.
  rewrite (affine_rcentered P2 Q2 a2 b2 H2 Htot) by tauto.
  ring.
Qed.

End Affine.

Section Transformed.
Local Open Scope R_scope.

Lemma nth_map_nan (f : xreal -> xreal) (d : list xreal) (i : nat) :
  (forall x, xisnan (f x) = xisnan x) ->
  xisnan (nth i (map f d) (EFin 0)) = xisnan (nth i d (EFin 0)).
Proof.
  intros Hf. destruct (Nat.lt_ge_cases i (length d)) as [Hi|Hi].
  - now rewrite (nth_map_lt _ _ f d i (EFin 0) (EFin 0) Hi).
  - now rewrite !nth_overflow by (rewrite ?length_map; lia).
Qed.

Lemma valid_positions_map (f g : xreal -> xreal)
    (p1 p2 : ndarray (@num exact)) :
  (forall x, xisnan (f x) = xisnan x) ->
  (forall x, xisnan (g x) = xisnan x) ->
  valid_positions (D:=exact) (@map_array (@num exact) (@num exact) f p1)
                             (@map_array (@num exact) (@num exact) g p2) =
  valid_positions (D:=exact) p1 p2.
Proof.
  intros Hf Hg. unfold valid_positions, map_array. cbn [data].
  rewrite length_map. apply filter_ext. intros i. unfold valid_at.
  change (@np_isnan exact) with xisnan. change (@zero exact) with (EFin 0).
  now rewrite (nth_map_nan f _ i Hf), (nth_map_nan g _ i Hg).
Qed.

Lemma rcell_map (f : xreal -> xreal) (p : ndarray (@num exact)) (i : nat) :
  (i < length (data p))%nat ->
  rcell (@map_array (@num exact) (@num exact) f p) i =
  real_of (f (nth i (data p) (@zero exact))).
Proof.
  intros Hi. unfold rcell, map_array. cbn [data].
  f_equal. now apply nth_map_lt.
Qed.

Lemma xshift_nan (b : R) (x : xreal) : xisnan (xshift b x) = xisnan x.
Proof. now destruct x. Qed.

Lemma xneg_nan (x : xreal) : xisnan (xneg x) = xisnan x.
Proof. now destruct x. Qed.

(** The result of the exact instance in terms of the real sums. *)
Lemma exact_formula_reals (p1 p2 : ndarray (@num exact))
    (weights : option (ndarray (@num exact))) (centered : bool) :
  well_formed p1 -> well_formed p2 -> shape p1 = shape p2 ->
  valid_positions (D:=exact) p1 p2 <> [] ->
  (forall w, weights = Some w -> well_formed w /\ shape w = shape p1) ->
  finite_weights p1 p2 weights -> rtotal p1 p2 weights <> 0 ->
  calculate_pattern_correlation (D:=exact) p1 p2 weights centered =
  if degenerate (D:=exact)
       (xsqrt (EFin (rvar p1 p2 weights centered p1)))
       (xsqrt (EFin (rvar p1 p2 weights centered p2)))
  then Raise ZeroVariance
  else Ok (xdiv (EFin (rcov p1 p2 weights centered))
             (xlift2 Rmult
                (xsqrt (EFin (rvar p1 p2 weights centered p1)))
                (xsqrt (EFin (rvar p1 p2 weights centered p2))))).
Proof.
  intros W1 W2 Hs HV Hw Hfin Htot.
  rewrite (correlation_validated p1 p2 weights centered W1 W2 Hs HV Hw).
  unfold pearson_formula, weighted_std.
  rewrite (var_fin p1 p2 weights centered Hfin Htot p1 (cell1_fin p1 p2)).
  rewrite (var_fin p1 p2 weights centered Hfin Htot p2 (cell2_fin p1 p2)).
  rewrite (cov_fin p1 p2 weights centered Hfin Htot).
  reflexivity.
Qed.

End Transformed.

(** X4: under exact arithmetic the centered correlation does not see a
    constant added to every cell of a pattern: the offsets [b1] and
    [b2] change neither the value nor the error. *)
Theorem offset_invariant
    (p1 p2 : ndarray (@num exact)) (weights : option (ndarray (@num exact)))
    (b1 b2 : R) :
  well_formed p1 -> well_formed p2 ->
  (forall w, weights = Some w ->
     well_formed w /\ shape w = shape p1 /\
     finite_weights p1 p2 weights /\ rtotal p1 p2 weights <> 0%R) ->
  calculate_pattern_correlation (D:=exact)
    (@map_array (@num exact) (@num exact) (xshift b1) p1)
    (@map_array (@num exact) (@num exact) (xshift b2) p2) weights true =
  calculate_pattern_correlation (D:=exact) p1 p2 weights true.
Proof.
  intros W1 W2 Hw.
  set (q1 := @map_array (@num exact) (@num exact) (xshift b1) p1).
  set (q2 := @map_array (@num exact) (@num exact) (xshift b2) p2).
  assert (Wq1 : well_formed q1)
    by (unfold well_formed, q1, map_array; cbn [shape data];
        now rewrite length_map).
  assert (Wq2 : well_formed q2)
    by (unfold well_formed, q2, map_array; cbn [shape data];
        now rewrite length_map).
  destruct (list_eq_dec Nat.eq_dec (shape p1) (shape p2)) as [Hs|Hs].
  2:{ rewrite (mismatch_first p1 p2 weights true Hs).
      now apply mismatch_first. }
  assert (HVeq : valid_positions (D:=exact) q1 q2 =
                 valid_positions (D:=exact) p1 p2)
    by (apply valid_positions_map; apply xshift_nan).
  destruct (valid_positions (D:=exact) p1 p2) as [|i0 idx] eqn:EV.
  { rewrite (empty_second p1 p2 weights true W1 W2 Hs EV).
    now apply empty_second. }
  assert (HV : valid_positions (D:=exact) p1 p2 <> [])
    by (rewrite EV; discriminate).
  rewrite <- EV in HVeq. clear EV i0 idx.
  assert (Hfacts : finite_weights p1 p2 weights /\
                   rtotal p1 p2 weights <> 0%R).
  { destruct weights as [w|].
    - destruct (Hw w eq_refl) as [_ [_ H]]. exact H.
    - split; [apply finite_none|].
      pose proof (rtotal_none_pos p1 p2 HV). lra. }
  destruct Hfacts as [Hfin Htot].
  assert (Hshape : forall w, weights = Some w ->
                     well_formed w /\ shape w = shape p1).
  { intros w E. destruct (Hw w E) as [Ww [Hsw _]]. now split. }
  assert (Hc1 : forall i, In i (valid_positions (D:=exact) p1 p2) ->
                  rcell q1 i = (1 * rcell p1 i + b1)%R).
  { intros i Hi. pose proof (cell1_fin p1 p2 i Hi) as Hc.
    apply (valid_position_lt (D:=exact)) in Hi. destruct Hi as [Hi _].
    unfold q1. rewrite (rcell_map _ p1 i Hi), Hc. simpl. ring. }
  assert (Hc2 : forall i, In i (valid_positions (D:=exact) p1 p2) ->
                  rcell q2 i = (1 * rcell p2 i + b2)%R).
  { intros i Hi. pose proof (cell2_fin p1 p2 i Hi) as Hc.
    apply (valid_position_lt (D:=exact)) in Hi. destruct Hi as [Hi _].
    unfold q2. rewrite (rcell_map _ p2 i); [rewrite Hc; simpl; ring|].
    now rewrite <- (same_shape_same_length p1 p2 Hs W1 W2). }
  rewrite (exact_formula_reals p1 p2 weights true W1 W2 Hs HV Hshape
             Hfin Htot).
  rewrite (exact_formula_reals q1 q2 weights true Wq1 Wq2 Hs);
    [ | now rewrite HVeq | exact Hshape
      | now apply (affine_finite p1 p2 q1 q2)
      | now rewrite (affine_rtotal p1 p2 q1 q2 weights HVeq) ].
  rewrite (affine_rvar p1 p2 q1 q2 weights true HVeq p1 q1 1 b1 Hc1 Htot)
    by now left.
  rewrite (affine_rvar p1 p2 q1 q2 weights true HVeq p2 q2 1 b2 Hc2 Htot)
    by now left.
  rewrite (affine_rcov p1 p2 q1 q2 weights true HVeq 1 b1 1 b2 Hc1 Hc2 Htot)
    by now left.
  now rewrite !Rmult_1_l.
Qed.

Lemma offset_invariant_witness :
  calculate_pattern_correlation (D:=exact)
    (@map_array (@num exact) (@num exact) (xshift 5)
       (arr1 [EFin 1; EFin 2; ENaN; EFin 4]))
    (@map_array (@num exact) (@num exact) (xshift 3)
       (arr1 [EFin 1; EFin 3; EFin 7; EFin 2]))
    (Some (arr1 [EFin 3; EFin 1; EFin 1; EFin 2])) true =
  calculate_pattern_correlation (D:=exact)
    (arr1 [EFin 1; EFin 2; ENaN; EFin 4])
    (arr1 [EFin 1; EFin 3; EFin 7; EFin 2])
    (Some (arr1 [EFin 3; EFin 1; EFin 1; EFin 2])) true.
Proof.
  apply (offset_invariant
           (arr1 [EFin 1; EFin 2; ENaN; EFin 4])
           (arr1 [EFin 1; EFin 3; EFin 7; EFin 2])
           (Some (arr1 [EFin 3; EFin 1; EFin 1; EFin 2])) 5 3);
    try reflexivity.
  intros w E. injection E as <-. repeat split.
  - finite_cells.
  - unfold_reals. lra.
Defined.

Lemma valid_positions_map_r (g : xreal -> xreal)
    (p1 p2 : ndarray (@num exact)) :
  (forall x, xisnan (g x) = xisnan x) ->
  valid_positions (D:=exact) p1 (@map_array (@num exact) (@num exact) g p2) =
  valid_positions (D:=exact) p1 p2.
Proof.
  intros Hg. unfold valid_positions, map_array. cbn [data].
  apply filter_ext. intros i. unfold valid_at.
  change (@np_isnan exact) with xisnan. change (@zero exact) with (EFin 0).
  now rewrite (nth_map_nan g _ i Hg).
Qed.

(** X5: under exact arithmetic a pattern and its opposite have the
    correlation -1, for both settings of the centering flag, as soon as
    the pattern has a valid position and a weighted standard deviation
    of at least the tolerance. *)
Theorem opposite_pattern_correlation
    (P : ndarray (@num exact)) (centered : bool) (s : R) :
  well_formed P -> has_valid_position (D:=exact) P P ->
  weighted_std (D:=exact) P P None centered P = EFin s ->
  (rtol <= s)%R ->
  calculate_pattern_correlation (D:=exact) P
    (@map_array (@num exact) (@num exact) xneg P) None centered =
  Ok (EFin (-1)).
Proof.
  intros W HV0 Es Hs. apply has_valid_positions in HV0.
  set (q := @map_array (@num exact) (@num exact) xneg P).
  assert (Wq : well_formed q)
    by (unfold well_formed, q, map_array; cbn [shape data];
        now rewrite length_map).
  assert (HVeq : valid_positions (D:=exact) P q =
                 valid_positions (D:=exact) P P)
    by (apply valid_positions_map_r; apply xneg_nan).
  assert (Hpos : (0 < rtotal P P None)%R) by now apply rtotal_none_pos.
  assert (Htot : rtotal P P None <> 0%R) by lra.
  assert (Hv : (0 <= rvar P P None centered P)%R).
  { apply rvar_nonneg; [|exact Hpos]. intros i _. cbn. lra. }
  rewrite (std1_fin P P None centered (finite_none P P) Htot Hv) in Es.
  injection Es as Es.
  assert (Hc1 : forall i, In i (valid_positions (D:=exact) P P) ->
                  rcell P i = (1 * rcell P i + 0)%R)
    by (intros i _; ring).
  assert (Hc2 : forall i, In i (valid_positions (D:=exact) P P) ->
                  rcell q i = (-1 * rcell P i + 0)%R).
  { intros i Hi. pose proof (cell1_fin P P i Hi) as Hc.
    apply (valid_position_lt (D:=exact)) in Hi. destruct Hi as [Hi _].
    unfold q. rewrite (rcell_map _ P i Hi), Hc. simpl. ring. }
  pose proof rtol_pos as Hp.
  assert (Hss : (s * s = rvar P P None centered P)%R)
    by (rewrite <- Es; now apply sqrt_sqrt).
  replace (EFin (-1))
    with (EFin (- rvar P P None centered P / (s * s))).
  2:{ f_equal. rewrite <- Hss. field. lra. }
  apply exact_correlation_squares; auto.
  - now rewrite HVeq.
  - discriminate.
  - apply (affine_finite P P P q None HVeq), finite_none.
  - now rewrite (affine_rtotal P P P q None HVeq).
  - rewrite (affine_rvar P P P q None centered HVeq P P 1 0 Hc1 Htot)
      by now right.
    rewrite <- Hss. ring.
  - rewrite (affine_rvar P P P q None centered HVeq P q (-1) 0 Hc2 Htot)
      by now right.
    rewrite <- Hss. ring.
  - rewrite (affine_rcov P P P q None centered HVeq 1 0 (-1) 0 Hc1 Hc2 Htot)
      by (right; now split).
    rewrite self_cov_var. ring.
Qed.

Lemma opposite_pattern_correlation_witness :
  calculate_pattern_correlation (D:=exact)
    (arr1 [EFin 1; EFin (-1)])
    (@map_array (@num exact) (@num exact) xneg (arr1 [EFin 1; EFin (-1)]))
    None true = Ok (EFin (-1)).
Proof.
  assert (E : rvar (arr1 [EFin 1; EFin (-1)]) (arr1 [EFin 1; EFin (-1)])
                None true (arr1 [EFin 1; EFin (-1)]) = 1%R)
    by (unfold_reals; field).
  apply (opposite_pattern_correlation (arr1 [EFin 1; EFin (-1)]) true 1).
  - reflexivity.
  - exists 0%nat. repeat split. simpl. lia.
  - rewrite (std1_fin _ _ None true (finite_none _ _)); rewrite ?E.
    + now rewrite sqrt_1.
    + unfold_reals. lra.
    + lra.
  - unfold rtol. lra.
Defined.

(** * The area weights of the wrapper *)

Section Broadcast.
Variables A B : Type.

Lemma flat_map_repeat_length (g : A -> B) (r : nat) (ws : list A) :
  length (flat_map (fun w => repeat (g w) r) ws) = length ws * r.
Proof.
  induction ws as [|w ws IH]; simpl; [reflexivity|].
  now rewrite length_app, repeat_length, IH.
Qed.

(** Cell [k] of the replicated weights is the weight of row [k / r]. *)
Lemma flat_map_repeat_nth (g : A -> B) (r : nat) (ws : list A)
    (k : nat) (d : B) (d' : A) :
  k < length ws * r ->
  nth k (flat_map (fun w => repeat (g w) r) ws) d = g (nth (k / r) ws d').
Proof.
  revert k; induction ws as [|w ws IH]; intros k Hk; simpl in *; [lia|].
  assert (Hr : r <> 0) by (intros ->; lia).
  destruct (Nat.lt_ge_cases k r) as [Hlt|Hge].
  - rewrite app_nth1 by now rewrite repeat_length.
    rewrite Nat.div_small by exact Hlt. apply nth_repeat_lt. exact Hlt.
  - rewrite app_nth2 by now rewrite repeat_length.
    rewrite repeat_length.
    replace (k / r) with (S ((k - r) / r)).
    + apply IH. lia.
    + replace k with ((k - r) + 1 * r) at 2 by lia.
      rewrite Nat.div_add by exact Hr. lia.
Qed.

End Broadcast.

Section ErrorKinds.
Context {D : Dtype}.

Lemma correlate_raises (a b w : list num) (centered : bool)
    (e : ValueError) :
  correlate a b w centered = Raise e -> e = ZeroVariance.
Proof.
  unfold correlate.
  match goal with |- (if ?c then _ else _) = _ -> _ => destruct c end;
    intros H; [now injection H | discriminate].
Qed.

(** The errors of the core function and when they can be raised. *)
Lemma correlation_errors (p1 p2 : ndarray num)
    (weights : option (ndarray num)) (centered : bool) (e : ValueError) :
  calculate_pattern_correlation p1 p2 weights centered = Raise e ->
  (e = PatternShapeMismatch /\ shape p1 <> shape p2) \/
  e = NoValidData \/
  (e = WeightShapeMismatch /\
   exists w, weights = Some w /\ shape w <> shape p1) \/
  e = ZeroVariance.
Proof.
  unfold calculate_pattern_correlation.
  destruct (shape_eqb (shape p1) (shape p2)) eqn:Es; cbn [negb].
  2:{ intros H. injection H as <-. left. split; [reflexivity|].
      intros E. apply shape_eqb_eq in E. congruence. }
  destruct (np_any _); cbn [negb].
  2:{ intros H. injection H as <-. now right; left. }
  unfold weights_valid. destruct weights as [w|].
  - destruct (shape_eqb (shape w) (shape p1)) eqn:Ew; cbn [negb].
    + intros H. apply correlate_raises in H. now right; right; right.
    + intros H. injection H as <-. right; right; left.
      split; [reflexivity|]. exists w. split; [reflexivity|].
      intros E. apply shape_eqb_eq in E. congruence.
  - intros H. apply correlate_raises in H. now right; right; right.
Qed.

End ErrorKinds.

Section Wrapper.
Context {D : Dtype}.
Variables np_cos np_deg2rad : num -> num.

Lemma index_of_head (name : string) (names : list string) :
  index_of name (name :: names) = 0.
Proof. simpl. now rewrite String.eqb_refl. Qed.

Lemma coord_values_length (data1 : DataArray num) (lat_dim : string) :
  wf_DataArray data1 -> In lat_dim (dims data1) ->
  length (coord_values data1 lat_dim) =
  nth (index_of lat_dim (dims data1)) (shape (values data1)) 0.
Proof.
  intros [_ [_ [_ Hc]]] Hin. unfold coord_values.
  destruct (lookup lat_dim (coords data1)) as [v|] eqn:E.
  - now apply Hc.
  - now rewrite length_map, length_seq.
Qed.

End Wrapper.

Section LeadingLatitude.
Context {D : Dtype}.
Variables np_cos np_deg2rad : num -> num.

(** The weight array built by the wrapper when the latitude leads. *)
Lemma leading_latitude_weights (data1 data2 : DataArray num)
    (lat_dim lon_dim : string) (others : list string) :
  wf_DataArray data1 -> dims data1 = lat_dim :: others ->
  let w := values (broadcast_weights
                     (map (fun x => np_cos (np_deg2rad x))
                          (coord_values data1 lat_dim))
                     lat_dim data1) in
  calculate_spatial_correlation np_cos np_deg2rad data1 data2
    lat_dim lon_dim true =
  calculate_pattern_correlation (values data1) (values data2)
    (Some w) true /\
  shape w = shape (values data1) /\ well_formed w /\
  (forall k, k < length (data w) ->
     k / size_of (tl (shape (values data1))) <
     length (coord_values data1 lat_dim) /\
     nth k (data w) zero =
     fmul (np_cos (np_deg2rad
             (nth (k / size_of (tl (shape (values data1))))
                  (coord_values data1 lat_dim) zero))) one).
Proof.
  intros Hwf Hd w.
  assert (Hin : In lat_dim (dims data1)) by (rewrite Hd; now left).
  pose proof (coord_values_length data1 lat_dim Hwf Hin) as Hlen.
  destruct Hwf as [Wv [Hdl _]].
  rewrite Hd, index_of_head in Hlen.
  destruct (shape (values data1)) as [|n rest] eqn:Esh;
    [rewrite Hd in Hdl; discriminate|].
  cbn [nth tl] in *.
  set (lats := coord_values data1 lat_dim) in *.
  assert (Esw : shape w = n :: rest).
  { unfold w, broadcast_weights. cbn [values shape].
    rewrite Hd, index_of_head, Esh. cbn [remove_nth].
    now rewrite length_map, Hlen. }
  assert (Edw : data w =
                flat_map (fun x => repeat (fmul (np_cos (np_deg2rad x)) one)
                                     (size_of rest)) lats).
  { unfold w, broadcast_weights. cbn [values data].
    rewrite Hd, index_of_head, Esh. cbn [remove_nth].
    now rewrite flat_map_concat_map, map_map, <- flat_map_concat_map. }
  split; [|split; [exact Esw | split]].
  - unfold calculate_spatial_correlation.
    rewrite (proj2 (existsb_eqb_In lat_dim (dims data1)) Hin).
    reflexivity.
  - unfold well_formed. rewrite Edw, Esw, flat_map_repeat_length, Hlen.
    reflexivity.
  - intros k Hk. rewrite Edw in *.
    rewrite flat_map_repeat_length in Hk. split.
    + apply Nat.Div0.div_lt_upper_bound. lia.
    + exact (flat_map_repeat_nth _ _
               (fun x => fmul (np_cos (np_deg2rad x)) one)
               (size_of rest) lats k zero zero Hk).
Qed.

End LeadingLatitude.

(** X6: when the latitude is the leading dimension of the first field,
    the area-weighted wrapper is the core correlation (centered) with a
    well-formed weight array of the shape of the field, in which cell
    [k] holds [cos(deg2rad(lat)) * 1.0] for the latitude of the row of
    [k]; so it raises neither the weight-shape error nor the
    missing-dimension error. *)
Theorem area_weights_leading_latitude {D : Dtype}
    (np_cos np_deg2rad : num -> num) (data1 data2 : DataArray num)
    (lat_dim lon_dim : string) (others : list string) :
  wf_DataArray data1 -> dims data1 = lat_dim :: others ->
  exists w : ndarray num,
    calculate_spatial_correlation np_cos np_deg2rad data1 data2
      lat_dim lon_dim true =
    calculate_pattern_correlation (values data1) (values data2)
      (Some w) true /\
    shape w = shape (values data1) /\ well_formed w /\
    (forall k, k < length (data w) ->
       nth k (data w) zero =
       fmul (np_cos (np_deg2rad
               (nth (k / size_of (tl (shape (values data1))))
                    (coord_values data1 lat_dim) zero))) one) /\
    calculate_spatial_correlation np_cos np_deg2rad data1 data2
      lat_dim lon_dim true <> Raise WeightShapeMismatch /\
    calculate_spatial_correlation np_cos np_deg2rad data1 data2
      lat_dim lon_dim true <> Raise LatDimNotFound.
Proof.
  intros Hwf Hd.
  destruct (leading_latitude_weights np_cos np_deg2rad data1 data2
              lat_dim lon_dim others Hwf Hd) as [Ecall [Esw [Ww Hcell]]].
  eexists. split; [exact Ecall|]. split; [exact Esw|].
  split; [exact Ww|]. split; [|split].
  - intros k Hk. now apply Hcell.
  - rewrite Ecall. intros H. apply correlation_errors in H.
    destruct H as [[H _]|[H|[[_ [w' [E Hs]]]|H]]]; try discriminate.
    injection E as <-. now apply Hs.
  - rewrite Ecall. intros H. apply correlation_errors in H.
    destruct H as [[H _]|[H|[[H _]|H]]]; discriminate.
Qed.

Lemma area_weights_leading_latitude_witness :
  calculate_spatial_correlation (D:=binary64) (fun x => x) (fun x => x)
    (mk_DataArray ["lat"; "lon"]%string
       (mk_ndarray [2; 3]
          [1%float; 2%float; 4%float; 3%float; 1%float; 5%float])
       [("lat"%string, [1%float; 2%float])])
    (mk_DataArray ["lat"; "lon"]%string
       (mk_ndarray [2; 3]
          [2%float; 1%float; 3%float; 5%float; 4%float; 1%float]) [])
    "lat"%string "lon"%string true <> Raise WeightShapeMismatch.
Proof.
  destruct (area_weights_leading_latitude (D:=binary64)
              (fun x => x) (fun x => x)
              (mk_DataArray ["lat"; "lon"]%string
                 (mk_ndarray [2; 3]
                    [1%float; 2%float; 4%float; 3%float; 1%float; 5%float])
                 [("lat"%string, [1%float; 2%float])])
              (mk_DataArray ["lat"; "lon"]%string
                 (mk_ndarray [2; 3]
                    [2%float; 1%float; 3%float; 5%float; 4%float; 1%float])
                 [])
              "lat"%string "lon"%string ["lon"%string])
    as [w [_ [_ [_ [_ [H _]]]]]].
  - repeat split.
    + repeat constructor; simpl; intuition discriminate.
    + intros name v E _. cbn in E.
      destruct (String.eqb name "lat") eqn:En; [|discriminate].
      apply String.eqb_eq in En. subst name. injection E as <-.
      reflexivity.
  - reflexivity.
  - exact H.
Defined.

(** X7: when the latitude is not the leading dimension of the first
    field and its length differs from the length of the leading
    dimension, the area-weighted wrapper raises the weight-shape error
    of the core function on fields of equal shapes with a valid
    position: the broadcast puts the latitude first. *)
Theorem area_weights_trailing_latitude {D : Dtype}
    (np_cos np_deg2rad : num -> num) (data1 data2 : DataArray num)
    (lat_dim lon_dim : string) :
  wf_DataArray data1 -> well_formed (values data2) ->
  shape (values data1) = shape (values data2) ->
  has_valid_position (values data1) (values data2) ->
  In lat_dim (dims data1) ->
  nth (index_of lat_dim (dims data1)) (shape (values data1)) 0 <>
  nth 0 (shape (values data1)) 0 ->
  calculate_spatial_correlation np_cos np_deg2rad data1 data2
    lat_dim lon_dim true = Raise WeightShapeMismatch.
Proof.
  intros Hwf W2 Hs HV Hin Hne.
  pose proof (coord_values_length data1 lat_dim Hwf Hin) as Hlen.
  destruct Hwf as [W1 _].
  unfold calculate_spatial_correlation.
  rewrite (proj2 (existsb_eqb_In lat_dim (dims data1)) Hin).
  cbn [negb option_map].
  apply weights_third; auto.
  - exact (proj1 (has_valid_positions _ _) HV).
  - unfold broadcast_weights. cbn [values shape].
    rewrite length_map, Hlen. intros E.
    apply (f_equal (fun l => nth 0 l 0)) in E. cbn [nth] in E.
    exact (Hne E).
Qed.

Lemma area_weights_trailing_latitude_witness :
  calculate_spatial_correlation (D:=binary64) (fun x => x) (fun x => x)
    (mk_DataArray ["lon"; "lat"]%string
       (mk_ndarray [3; 2]
          [1%float; 2%float; 4%float; 3%float; 1%float; 5%float])
       [("lat"%string, [1%float; 2%float])])
    (mk_DataArray ["lon"; "lat"]%string
       (mk_ndarray [3; 2]
          [2%float; 1%float; 3%float; 5%float; 4%float; 1%float]) [])
    "lat"%string "lon"%string true = Raise WeightShapeMismatch.
Proof.
  apply (area_weights_trailing_latitude (D:=binary64)
           (fun x => x) (fun x => x)); try reflexivity.
  - repeat split.
    + repeat constructor; simpl; intuition discriminate.
    + intros name v E _. cbn in E.
      destruct (String.eqb name "lat") eqn:En; [|discriminate].
      apply String.eqb_eq in En. subst name. injection E as <-.
      reflexivity.
  - exists 0. repeat split. simpl. lia.
  - right. now left.
  - simpl. lia.
Defined.

Section AreaWeightedRange.
Local Open Scope R_scope.

Lemma exact_unit_interval (p1 p2 : ndarray (@num exact))
    (weights : option (ndarray (@num exact))) (centered : bool)
    (v : xreal) :
  well_formed p1 -> well_formed p2 -> shape p1 = shape p2 ->
  valid_positions (D:=exact) p1 p2 <> [] ->
  (forall w, weights = Some w -> well_formed w /\ shape w = shape p1) ->
  finite_weights p1 p2 weights ->
  (forall i, In i (valid_positions (D:=exact) p1 p2) ->
     0 <= rraw weights i) ->
  0 < rtotal p1 p2 weights ->
  calculate_pattern_correlation (D:=exact) p1 p2 weights centered = Ok v ->
  exists r, v = EFin r /\ -1 <= r <= 1.
Proof.
  intros W1 W2 Hs HV Hshape Hfin Hnn Hpos E.
  pose proof (rvar_nonneg p1 p2 weights centered p1 Hnn Hpos) as Hv1.
  pose proof (rvar_nonneg p1 p2 weights centered p2 Hnn Hpos) as Hv2.
  rewrite (exact_correlation_value p1 p2 weights centered W1 W2 Hs HV
             Hshape Hfin) in E; try assumption; [|lra].
  destruct (degenerate _ _) eqn:Ed; [discriminate|].
  injection E as <-. eexists. split; [reflexivity|].
  apply degenerate_fin in Ed; try apply sqrt_pos.
  pose proof rtol_pos as Hp. destruct Ed as [E1 E2].
  apply quotient_bound; try lra.
  unfold rcov, rvar. apply rsum_cauchy_schwarz.
  intros i Hi. apply rweight_nonneg; [now apply Hnn | exact Hpos].
Qed.

Lemma cos_deg_nonneg (r : R) :
  -90 <= r <= 90 -> 0 <= cos (r * (PI / 180)).
Proof.
  intros H. pose proof PI_RGT_0 as Hpi. apply cos_ge_0; nra.
Qed.

Lemma cos_deg_pos (r : R) :
  -90 < r < 90 -> 0 < cos (r * (PI / 180)).
Proof.
  intros H. pose proof PI_RGT_0 as Hpi. apply cos_gt_0; nra.
Qed.

End AreaWeightedRange.

(** X8: under exact arithmetic with the true cosine, when the latitude
    is the leading dimension, its coordinates lie between -90 and 90
    degrees and some valid position lies strictly between the poles,
    a value returned by the area-weighted wrapper lies in [-1, 1]. *)
Theorem area_weighted_in_unit_interval
    (data1 data2 : DataArray (@num exact)) (lat_dim lon_dim : string)
    (others : list string) (v : xreal) :
  wf_DataArray data1 -> dims data1 = lat_dim :: others ->
  well_formed (values data2) ->
  (forall x, In x (coord_values (D:=exact) data1 lat_dim) ->
     exists r, x = EFin r /\ (-90 <= r <= 90)%R) ->
  (exists k, In k (valid_positions (D:=exact) (values data1) (values data2))
     /\ exists r,
          nth (k / size_of (tl (shape (values data1))))
              (coord_values (D:=exact) data1 lat_dim) (@zero exact) = EFin r
          /\ (-90 < r < 90)%R) ->
  calculate_spatial_correlation (D:=exact) xcos xdeg2rad data1 data2
    lat_dim lon_dim true = Ok v ->
  exists r, v = EFin r /\ (-1 <= r <= 1)%R.
Proof.
  intros Hwf Hd W2 Hlat [k0 [Hk0 [r0 [Er0 Hr0]]]] E.
  destruct (leading_latitude_weights (D:=exact) xcos xdeg2rad data1 data2
              lat_dim lon_dim others Hwf Hd) as [Ecall [Esw [Ww Hcell]]].
  rewrite Ecall in E. destruct Hwf as [W1 _].
  match type of Esw with shape ?t = _ => set (w := t) in * end.
  destruct (list_eq_dec Nat.eq_dec (shape (values data1))
              (shape (values data2))) as [Hs|Hs].
  2:{ rewrite (mismatch_first _ _ (Some w) true Hs) in E. discriminate. }
  assert (HV : valid_positions (D:=exact) (values data1) (values data2)
               <> []) by (intros E0; rewrite E0 in Hk0; destruct Hk0).
  assert (Hlw : length (data w) = length (data (values data1))).
  { unfold well_formed in *. now rewrite Ww, Esw, W1. }
  assert (Hraw : forall i,
            In i (valid_positions (D:=exact) (values data1) (values data2)) ->
            exists r,
              nth (i / size_of (tl (shape (values data1))))
                  (coord_values (D:=exact) data1 lat_dim) (@zero exact) =
              EFin r /\ (-90 <= r <= 90)%R /\
              raw_weight (D:=exact) (Some w) i =
              EFin (cos (r * (PI / 180)) * 1)).
  { intros i Hi. apply (valid_position_lt (D:=exact)) in Hi.
    destruct Hi as [Hi _]. rewrite <- Hlw in Hi.
    destruct (Hcell i Hi) as [Hrow Hc].
    destruct (Hlat _ (nth_In _ (@zero exact) Hrow)) as [r [Er Hr]].
    exists r. split; [exact Er | split; [exact Hr|]].
    cbn [raw_weight]. rewrite Hc, Er. reflexivity. }
  apply (exact_unit_interval (values data1) (values data2) (Some w) true v);
    auto.
  - intros w' Ew. injection Ew as <-. now split.
  - intros i Hi. destruct (Hraw i Hi) as [r [_ [_ Hw]]].
    eexists. exact Hw.
  - intros i Hi. destruct (Hraw i Hi) as [r [_ [Hr Hw]]].
    unfold rraw. rewrite Hw. cbn [real_of].
    pose proof (cos_deg_nonneg r Hr). lra.
  - unfold rtotal. apply rsum_pos.
    + intros i Hi. destruct (Hraw i Hi) as [r [_ [Hr Hw]]].
      unfold rraw. rewrite Hw. cbn [real_of].
      pose proof (cos_deg_nonneg r Hr). lra.
    + exists k0. split; [exact Hk0|].
      destruct (Hraw k0 Hk0) as [r [Er [_ Hw]]].
      rewrite Er0 in Er. injection Er as <-.
      unfold rraw. rewrite Hw. cbn [real_of].
      pose proof (cos_deg_pos r0 Hr0). lra.
Qed.

Lemma area_weighted_in_unit_interval_witness :
  exists r, EFin (1 / (1 * 1)) = EFin r /\ (-1 <= r <= 1)%R.
Proof.
  apply (area_weighted_in_unit_interval
           (mk_DataArray ["lat"; "lon"]%string
              (mk_ndarray [2; 1] [EFin 1; EFin (-1)])
              [("lat"%string, [EFin 0; EFin 0])])
           (mk_DataArray ["lat"; "lon"]%string
              (mk_ndarray [2; 1] [EFin 1; EFin (-1)]) [])
           "lat"%string "lon"%string ["lon"%string] (EFin (1 / (1 * 1)))).
  - repeat split.
    + repeat constructor; simpl; intuition discriminate.
    + intros name v E _. cbn in E.
      destruct (String.eqb name "lat") eqn:En; [|discriminate].
      apply String.eqb_eq in En. subst name. injection E as <-.
      reflexivity.
  - reflexivity.
  - reflexivity.
  - intros x Hx. cbn in Hx. exists 0%R.
    destruct Hx as [<-|[<-|[]]]; split; try reflexivity; lra.
  - exists 0%nat. split; [now left|]. exists 0%R.
    split; [reflexivity | lra].
  - unfold calculate_spatial_correlation. cbn [existsb dims negb orb].
    change (String.eqb "lat" "lat") with true. cbn [orb negb option_map].
    change (values (broadcast_weights (D:=exact)
              (map (fun x => xcos (xdeg2rad x))
                 (coord_values (D:=exact)
                    (mk_DataArray ["lat"; "lon"]%string
                       (mk_ndarray [2; 1] [EFin 1; EFin (-1)])
                       [("lat"%string, [EFin 0; EFin 0])]) "lat"))
              "lat"
              (mk_DataArray ["lat"; "lon"]%string
                 (mk_ndarray [2; 1] [EFin 1; EFin (-1)])
                 [("lat"%string, [EFin 0; EFin 0])])))
      with (mk_ndarray [2; 1]
              [EFin (cos (0 * (PI / 180)) * 1);
               EFin (cos (0 * (PI / 180)) * 1)]).
    cbn [values].
    apply exact_correlation_squares; try reflexivity.
    + unfold_reals. discriminate.
    + intros w E. injection E as <-. split; reflexivity.
    + finite_cells.
    + unfold_reals. rewrite Rmult_0_l, cos_0. lra.
    + unfold rtol. lra.
    + unfold rtol. lra.
    + unfold_reals. rewrite Rmult_0_l, cos_0. lra.
    + unfold_reals. rewrite Rmult_0_l, cos_0. lra.
    + unfold_reals. rewrite Rmult_0_l, cos_0. lra.
Defined.

(** * Loading the fields *)

Section Loading.
Variable A : Type.

Lemma find_variable_none (names : list string) (ds : Dataset A) :
  find_variable names ds = None <->
  forall n, In n names -> lookup n ds = None.
Proof.
  induction names as [|n names IH]; simpl.
  - split; [intros _ n [] | reflexivity].
  - destruct (lookup n ds) as [v|] eqn:E; split.
    + discriminate.
    + intros H. specialize (H n (or_introl eq_refl)). congruence.
    + intros H m [<-|Hm]; [exact E | now apply IH].
    + intros H. apply IH. intros m Hm. apply H. now right.
Qed.

(** The variable found is the one of the first name that is present. *)
Lemma find_variable_some (names : list string) (ds : Dataset A)
    (v : DataArray A) :
  find_variable names ds = Some v <->
  exists pre n post,
    names = pre ++ n :: post /\
    (forall m, In m pre -> lookup m ds = None) /\
    lookup n ds = Some v.
Proof.
  induction names as [|n names IH]; simpl.
  - split; [discriminate|]. intros [pre [m [post [E _]]]].
    destruct pre; discriminate.
  - destruct (lookup n ds) as [u|] eqn:E; split.
    + intros H. injection H as <-. exists [], n, names.
      repeat split; [intros m [] | exact E].
    + intros [pre [m [post [En [Hpre Hm]]]]].
      destruct pre as [|p pre]; simpl in En; injection En as <- ->.
      * congruence.
      * specialize (Hpre n (or_introl eq_refl)). congruence.
    + intros H. apply IH in H. destruct H as [pre [m [post [-> [Hpre Hm]]]]].
      exists (n :: pre), m, post. repeat split; [|exact Hm].
      intros k [<-|Hk]; [exact E | now apply Hpre].
    + intros [pre [m [post [En [Hpre Hm]]]]].
      destruct pre as [|p pre]; simpl in En; injection En as <- ->.
      * congruence.
      * apply IH. exists pre, m, post. repeat split; [|exact Hm].
        intros k Hk. apply Hpre. now right.
Qed.

End Loading.

(** X9: [load_sst_data] fails for the observations exactly when their
    dataset holds none of the names sst, tos, SST, TOS, whatever the
    model dataset holds; it fails for the model exactly when the
    observations hold one of the names and the model none. *)
Theorem load_sst_data_errors (A : Type) (obs_ds model_ds : Dataset A) :
  (load_sst_data obs_ds model_ds = inl ObsVariableNotFound <->
   forall n, In n sst_names -> lookup n obs_ds = None) /\
  (load_sst_data obs_ds model_ds = inl ModelVariableNotFound <->
   (exists n, In n sst_names /\ lookup n obs_ds <> None) /\
   forall n, In n sst_names -> lookup n model_ds = None).
Proof.
  unfold load_sst_data. split.
  - rewrite <- find_variable_none.
    destruct (find_variable sst_names obs_ds);
      [destruct (find_variable sst_names model_ds)|];
      split; congruence.
  - rewrite <- find_variable_none.
    destruct (find_variable sst_names obs_ds) as [o|] eqn:Eo.
    + apply find_variable_some in Eo.
      destruct Eo as [pre [n [post [En [_ Hn]]]]].
      assert (Hex : exists n, In n sst_names /\ lookup n obs_ds <> None).
      { exists n. split; [rewrite En; apply in_or_app; right; now left|].
        congruence. }
      destruct (find_variable sst_names model_ds); split;
        try congruence; try tauto. intros [_ H]. congruence.
    + split; [discriminate|]. intros [[n [Hn Hl]] _].
      exfalso. apply Hl.
      exact (proj1 (find_variable_none A sst_names obs_ds) Eo n Hn).
Qed.

(** X10: [load_sst_data] returns exactly when both datasets hold one of
    the names; each field returned is the squeezed variable of the
    first of the names sst, tos, SST, TOS that its dataset holds, the
    two datasets being searched independently. *)
Theorem load_sst_data_first_name (A : Type) (obs_ds model_ds : Dataset A)
    (obs_data model_data : DataArray A) :
  load_sst_data obs_ds model_ds = inr (obs_data, model_data) <->
  exists o m,
    obs_data = squeeze o /\ model_data = squeeze m /\
    (exists pre n post,
       sst_names = pre ++ n :: post /\
       (forall k, In k pre -> lookup k obs_ds = None) /\
       lookup n obs_ds = Some o) /\
    (exists pre n post,
       sst_names = pre ++ n :: post /\
       (forall k, In k pre -> lookup k model_ds = None) /\
       lookup n model_ds = Some m).
Proof.
  unfold load_sst_data. split.
  - destruct (find_variable sst_names obs_ds) as [o|] eqn:Eo;
      [|discriminate].
    destruct (find_variable sst_names model_ds) as [m|] eqn:Em;
      [|discriminate].
    intros H. injection H as <- <-. exists o, m.
    repeat split; now apply find_variable_some.
  - intros [o [m [-> [-> [Ho Hm]]]]].
    apply find_variable_some in Ho, Hm. now rewrite Ho, Hm.
Qed.

Lemma load_sst_data_errors_witness :
  load_sst_data (A:=float)
    [("time"%string, mk_DataArray [] (mk_ndarray [] [0%float]) [])]
    [("sst"%string, mk_DataArray [] (mk_ndarray [] [1%float]) [])] =
  inl ObsVariableNotFound.
Proof.
  apply (proj1 (load_sst_data_errors float _ _)).
  intros n [<-|[<-|[<-|[<-|[]]]]]; reflexivity.
Defined.

Lemma load_sst_data_first_name_witness :
  load_sst_data (A:=float)
    [("tos"%string, mk_DataArray ["lat"%string] (mk_ndarray [2] [3%float; 4%float]) []);
     ("sst"%string, mk_DataArray ["lat"%string] (mk_ndarray [2] [1%float; 2%float]) [])]
    [("TOS"%string, mk_DataArray ["lat"%string] (mk_ndarray [2] [5%float; 6%float]) [])] =
  inr (squeeze (mk_DataArray ["lat"%string] (mk_ndarray [2] [1%float; 2%float]) []),
       squeeze (mk_DataArray ["lat"%string] (mk_ndarray [2] [5%float; 6%float]) [])).
Proof.
  apply (proj2 (load_sst_data_first_name float _ _ _ _)).
  eexists. eexists. split; [reflexivity|]. split; [reflexivity|]. split.
  - exists [], "sst"%string, ["tos"; "SST"; "TOS"]%string.
    repeat split. intros k [].
  - exists ["sst"; "tos"; "SST"]%string, "TOS"%string, [].
    repeat split. intros k [<-|[<-|[<-|[]]]]; reflexivity.
Defined.

(** * Squeezing *)

Section Squeeze.

Lemma squeeze_shape_size (sh : list nat) :
  size_of (squeeze_shape sh) = size_of sh.
Proof.
  unfold squeeze_shape. induction sh as [|k sh IH]; simpl; [reflexivity|].
  destruct (Nat.eqb k 1) eqn:E; simpl.
  - apply Nat.eqb_eq in E. subst k. rewrite IH. lia.
  - now rewrite IH.
Qed.

Lemma squeeze_shape_no_one (sh : list nat) : ~ In 1 (squeeze_shape sh).
Proof.
  unfold squeeze_shape. intros H. apply filter_In in H.
  destruct H as [_ H]. discriminate.
Qed.

Lemma squeeze_shape_fixed (sh : list nat) :
  ~ In 1 sh -> squeeze_shape sh = sh.
Proof.
  unfold squeeze_shape. induction sh as [|k sh IH]; intros H; simpl;
    [reflexivity|].
  destruct (Nat.eqb k 1) eqn:E.
  - apply Nat.eqb_eq in E. subst k. exfalso. apply H. now left.
  - simpl. f_equal. apply IH. intros Hin. apply H. now right.
Qed.

Lemma squeeze_dims_length (names : list string) (sh : list nat) :
  length names = length sh ->
  length (squeeze_dims names sh) = length (squeeze_shape sh).
Proof.
  unfold squeeze_shape. revert sh; induction names as [|n names IH];
    intros [|k sh] H; simpl in *; try discriminate; try reflexivity.
  injection H as H. destruct (Nat.eqb k 1); simpl; auto.
Qed.

Lemma squeeze_dims_fixed (names : list string) (sh : list nat) :
  length names = length sh -> ~ In 1 sh -> squeeze_dims names sh = names.
Proof.
  revert sh; induction names as [|n names IH]; intros [|k sh] H Hn;
    simpl in *; try discriminate; try reflexivity.
  injection H as H. destruct (Nat.eqb k 1) eqn:E.
  - apply Nat.eqb_eq in E. subst k. exfalso. apply Hn. now left.
  - f_equal. apply IH; [exact H|]. intros Hin. apply Hn. now right.
Qed.

Lemma squeeze_dims_In (names : list string) (sh : list nat) (name : string) :
  In name (squeeze_dims names sh) -> In name names.
Proof.
  revert sh; induction names as [|n names IH]; intros [|k sh] H;
    simpl in *; try contradiction.
  destruct (Nat.eqb k 1).
  - right. eapply IH, H.
  - destruct H as [H|H]; [now left | right; eapply IH, H].
Qed.

Lemma squeeze_dims_NoDup (names : list string) (sh : list nat) :
  NoDup names -> NoDup (squeeze_dims names sh).
Proof.
  revert sh; induction names as [|n names IH]; intros [|k sh] H;
    simpl; try constructor.
  inversion H as [|? ? Hn Hnd]; subst.
  destruct (Nat.eqb k 1); [now apply IH|].
  constructor; [|now apply IH].
  intros Hin. apply Hn. eapply squeeze_dims_In, Hin.
Qed.

Lemma index_of_tail (name n : string) (names : list string) :
  name <> n -> index_of name (n :: names) = S (index_of name names).
Proof.
  intros H. simpl. destruct (String.eqb name n) eqn:E; [|reflexivity].
  apply String.eqb_eq in E. contradiction.
Qed.

(** An axis that is kept keeps its length. *)
Lemma squeeze_axis_length (names : list string) (sh : list nat)
    (name : string) :
  length names = length sh -> NoDup names ->
  In name (squeeze_dims names sh) ->
  nth (index_of name (squeeze_dims names sh)) (squeeze_shape sh) 0 =
  nth (index_of name names) sh 0.
Proof.
  unfold squeeze_shape. revert sh; induction names as [|n names IH];
    intros [|k sh] H Hnd Hin; simpl in H, Hin; try discriminate;
    try contradiction.
  injection H as H. inversion Hnd as [|? ? Hn Hnd']; subst.
  cbn [squeeze_dims filter]. destruct (Nat.eqb k 1) eqn:E; cbn [negb].
  - assert (Hne : name <> n).
    { intros ->. apply Hn. eapply squeeze_dims_In, Hin. }
    rewrite (index_of_tail name n names Hne). cbn [nth].
    now apply IH.
  - destruct (String.eqb name n) eqn:En.
    + apply String.eqb_eq in En. subst name.
      now rewrite !index_of_head.
    + assert (Hne : name <> n)
        by (intros ->; rewrite String.eqb_refl in En; discriminate).
      rewrite !(index_of_tail name n) by exact Hne. cbn [nth].
      apply IH; auto. destruct Hin as [Hin|Hin]; [congruence | exact Hin].
Qed.

(** An axis of length 1 is not kept. *)
Lemma squeeze_axis_dropped (names : list string) (sh : list nat)
    (name : string) :
  length names = length sh -> NoDup names -> In name names ->
  nth (index_of name names) sh 0 = 1 ->
  ~ In name (squeeze_dims names sh).
Proof.
  revert sh; induction names as [|n names IH];
    intros [|k sh] H Hnd Hin H1; simpl in H, Hin; try discriminate;
    try contradiction.
  injection H as H. inversion Hnd as [|? ? Hn Hnd']; subst.
  cbn [squeeze_dims]. destruct (String.eqb name n) eqn:En.
  - apply String.eqb_eq in En. subst name.
    rewrite index_of_head in H1. cbn [nth] in H1. subst k.
    cbn [Nat.eqb]. intros Hin'. apply Hn. eapply squeeze_dims_In, Hin'.
  - assert (Hne : name <> n)
      by (intros ->; rewrite String.eqb_refl in En; discriminate).
    rewrite (index_of_tail name n names Hne) in H1. cbn [nth] in H1.
    destruct Hin as [Hin|Hin]; [congruence|].
    destruct (Nat.eqb k 1).
    + now apply IH.
    + intros [Hin'|Hin']; [congruence|]. revert Hin'. now apply IH.
Qed.

End Squeeze.

Lemma squeeze_wf (A : Type) (d : DataArray A) :
  wf_DataArray d -> wf_DataArray (squeeze d).
Proof.
  intros [W [Hl [Hnd Hc]]]. unfold wf_DataArray, squeeze.
  cbn [values dims coords shape data]. repeat split.
  - unfold well_formed in *. cbn [shape data].
    now rewrite squeeze_shape_size.
  - now apply squeeze_dims_length.
  - now apply squeeze_dims_NoDup.
  - intros name v E Hin.
    rewrite (squeeze_axis_length _ _ name Hl Hnd Hin).
    apply Hc; [exact E|]. eapply squeeze_dims_In, Hin.
Qed.

(** X11: squeezing a labelled array keeps it well formed and keeps its
    cells in their order, leaves no axis of length 1, and squeezing
    twice is squeezing once. *)
Theorem squeeze_properties (A : Type) (d : DataArray A) :
  wf_DataArray d ->
  wf_DataArray (squeeze d) /\
  data (values (squeeze d)) = data (values d) /\
  ~ In 1 (shape (values (squeeze d))) /\
  squeeze (squeeze d) = squeeze d.
Proof.
  intros Hwf. split; [now apply squeeze_wf|]. split; [reflexivity|].
  split; [apply squeeze_shape_no_one|].
  destruct Hwf as [_ [Hl _]]. unfold squeeze.
  cbn [values dims coords shape data].
  rewrite (squeeze_shape_fixed (squeeze_shape _))
    by apply squeeze_shape_no_one.
  rewrite (squeeze_dims_fixed (squeeze_dims _ _) (squeeze_shape _));
    [reflexivity | now apply squeeze_dims_length
    | apply squeeze_shape_no_one].
Qed.

Lemma squeeze_properties_witness :
  ~ In 1 (shape (values (squeeze
       (mk_DataArray ["time"; "lat"; "lon"]%string
          (mk_ndarray [1; 2; 3]
             [1%float; 2%float; 4%float; 3%float; 1%float; 5%float])
          [("lat"%string, [10%float; 20%float])])))).
Proof.
  apply (squeeze_properties float
           (mk_DataArray ["time"; "lat"; "lon"]%string
              (mk_ndarray [1; 2; 3]
                 [1%float; 2%float; 4%float; 3%float; 1%float; 5%float])
              [("lat"%string, [10%float; 20%float])])).
  repeat split.
  - repeat constructor; simpl; intuition discriminate.
  - intros name v E _. cbn in E.
    destruct (String.eqb name "lat") eqn:En; [|discriminate].
    apply String.eqb_eq in En. subst name. injection E as <-.
    reflexivity.
Defined.

(** X12: for fields of equal shapes, the correlation without weights of
    the squeezed fields is the correlation of the fields, for every
    element type. *)
Theorem squeeze_preserves_correlation {D : Dtype}
    (d1 d2 : DataArray num) (centered : bool) :
  shape (values d1) = shape (values d2) ->
  calculate_pattern_correlation (values (squeeze d1)) (values (squeeze d2))
    None centered =
  calculate_pattern_correlation (values d1) (values d2) None centered.
Proof.
  intros Hs.
  rewrite (correlation_steps (values d1) (values d2) None centered Hs).
  rewrite (correlation_steps (values (squeeze d1)) (values (squeeze d2)))
    by (unfold squeeze; cbn [values shape]; now rewrite Hs).
  reflexivity.
Qed.

Lemma squeeze_preserves_correlation_witness :
  calculate_pattern_correlation (D:=binary64)
    (values (squeeze (mk_DataArray ["time"; "lat"]%string
               (mk_ndarray [1; 3] [1%float; 2%float; 4%float]) [])))
    (values (squeeze (mk_DataArray ["time"; "lat"]%string
               (mk_ndarray [1; 3] [1%float; 3%float; 2%float]) [])))
    None true =
  calculate_pattern_correlation (D:=binary64)
    (mk_ndarray [1; 3] [1%float; 2%float; 4%float])
    (mk_ndarray [1; 3] [1%float; 3%float; 2%float]) None true.
Proof.
  apply (squeeze_preserves_correlation (D:=binary64)
           (mk_DataArray ["time"; "lat"]%string
              (mk_ndarray [1; 3] [1%float; 2%float; 4%float]) [])
           (mk_DataArray ["time"; "lat"]%string
              (mk_ndarray [1; 3] [1%float; 3%float; 2%float]) []) true).
  reflexivity.
Defined.

(** X13: a field whose latitude axis has length 1 loses that axis when
    it is squeezed, as [load_sst_data] does, and the area-weighted
    wrapper then raises the missing-dimension error. *)
Theorem squeezed_latitude_missing {D : Dtype}
    (np_cos np_deg2rad : num -> num) (d1 data2 : DataArray num)
    (lat_dim lon_dim : string) :
  wf_DataArray d1 -> In lat_dim (dims d1) ->
  nth (index_of lat_dim (dims d1)) (shape (values d1)) 0 = 1 ->
  calculate_spatial_correlation np_cos np_deg2rad (squeeze d1) data2
    lat_dim lon_dim true = Raise LatDimNotFound.
Proof.
  intros [_ [Hl [Hnd _]]] Hin H1.
  unfold calculate_spatial_correlation.
  destruct (existsb (String.eqb lat_dim) (dims (squeeze d1))) eqn:E;
    [|reflexivity].
  apply existsb_eqb_In in E. exfalso.
  exact (squeeze_axis_dropped _ _ lat_dim Hl Hnd Hin H1 E).
Qed.

Lemma squeezed_latitude_missing_witness :
  calculate_spatial_correlation (D:=binary64) (fun x => x) (fun x => x)
    (squeeze (mk_DataArray ["lat"; "lon"]%string
                (mk_ndarray [1; 3] [1%float; 2%float; 4%float]) []))
    (squeeze (mk_DataArray ["lat"; "lon"]%string
                (mk_ndarray [1; 3] [1%float; 3%float; 2%float]) []))
    "lat"%string "lon"%string true = Raise LatDimNotFound.
Proof.
  apply (squeezed_latitude_missing (D:=binary64) (fun x => x) (fun x => x)
           (mk_DataArray ["lat"; "lon"]%string
              (mk_ndarray [1; 3] [1%float; 2%float; 4%float]) [])).
  - repeat split.
    + repeat constructor; simpl; intuition discriminate.
    + intros name v E. discriminate.
  - now left.
  - reflexivity.
Defined.

Lemma squeeze_dims_leading (pre post : list string) (name : string)
    (n : nat) (rest : list nat) :
  n <> 1 ->
  squeeze_dims (pre ++ name :: post) (repeat 1 (length pre) ++ n :: rest) =
  name :: squeeze_dims post rest.
Proof.
  intros Hn. induction pre as [|p pre IH]; simpl.
  - destruct (Nat.eqb n 1) eqn:E; [|reflexivity].
    apply Nat.eqb_eq in E. contradiction.
  - exact IH.
Qed.

(** X14: when every axis before the latitude has length 1 (a single
    time step, say) and the latitude axis has not, the squeezed field
    has the latitude as its leading dimension, and the area-weighted
    wrapper raises neither the weight-shape error nor the
    missing-dimension error on it. *)
Theorem squeezed_leading_latitude {D : Dtype}
    (np_cos np_deg2rad : num -> num) (d1 data2 : DataArray num)
    (lat_dim lon_dim : string) (pre post : list string)
    (n : nat) (rest : list nat) :
  wf_DataArray d1 ->
  dims d1 = pre ++ lat_dim :: post ->
  shape (values d1) = repeat 1 (length pre) ++ n :: rest -> n <> 1 ->
  dims (squeeze d1) = lat_dim :: squeeze_dims post rest /\
  calculate_spatial_correlation np_cos np_deg2rad (squeeze d1) data2
    lat_dim lon_dim true <> Raise WeightShapeMismatch /\
  calculate_spatial_correlation np_cos np_deg2rad (squeeze d1) data2
    lat_dim lon_dim true <> Raise LatDimNotFound.
Proof.
  intros Hwf Hd Hsh Hn.
  assert (Hds : dims (squeeze d1) = lat_dim :: squeeze_dims post rest).
  { unfold squeeze. cbn [dims]. rewrite Hd, Hsh.
    now apply squeeze_dims_leading. }
  split; [exact Hds|].
  destruct (leading_latitude_weights np_cos np_deg2rad (squeeze d1) data2
              lat_dim lon_dim _ (squeeze_wf _ d1 Hwf) Hds)
    as [Ecall [Esw _]].
  rewrite Ecall. split; intros H; apply correlation_errors in H.
  - destruct H as [[H _]|[H|[[_ [w' [E Hs]]]|H]]]; try discriminate.
    injection E as <-. now apply Hs.
  - destruct H as [[H _]|[H|[[H _]|H]]]; discriminate.
Qed.

Lemma squeezed_leading_latitude_witness :
  calculate_spatial_correlation (D:=binary64) (fun x => x) (fun x => x)
    (squeeze (mk_DataArray ["time"; "lat"; "lon"]%string
                (mk_ndarray [1; 2; 3]
                   [1%float; 2%float; 4%float; 3%float; 1%float; 5%float])
                [("lat"%string, [10%float; 20%float])]))
    (mk_DataArray ["lat"; "lon"]%string
       (mk_ndarray [2; 3]
          [2%float; 1%float; 3%float; 5%float; 4%float; 1%float]) [])
    "lat"%string "lon"%string true <> Raise WeightShapeMismatch.
Proof.
  apply (squeezed_leading_latitude (D:=binary64) (fun x => x) (fun x => x)
           (mk_DataArray ["time"; "lat"; "lon"]%string
              (mk_ndarray [1; 2; 3]
                 [1%float; 2%float; 4%float; 3%float; 1%float; 5%float])
              [("lat"%string, [10%float; 20%float])])
           _ "lat"%string "lon"%string ["time"%string] ["lon"%string]
           2 [3]); try reflexivity; try lia.
  repeat split.
  - repeat constructor; simpl; intuition discriminate.
  - intros name v E _. cbn in E.
    destruct (String.eqb name "lat") eqn:En; [|discriminate].
    apply String.eqb_eq in En. subst name. injection E as <-.
    reflexivity.
Defined.
